(** * EventManager: a shallow embedding of [EventManager.py]

    The module defines two classes.  [Event] is a [list] of handlers with two
    extra attributes, [name] and [eventmanager]; [EventManager] is a [dict]
    from names to values whose attribute reads and writes are redirected to
    item reads and writes.

    Python objects are shared and mutated in place, so the embedding keeps a
    store of [Event] objects and of [EventManager] dictionaries addressed by
    allocation index.  The mutating methods run in a state-and-exception
    monad over that store; [fire] only reads the store and threads the state
    of the user's handlers together with a log of what was invoked. *)

From Stdlib Require Import ZArith.
From stdpp Require Import base strings list gmap.

Open Scope string_scope.
Open Scope list_scope.

(** ** Values, exceptions, objects *)

(** The Python values that the model lets through handler lists, argument
    lists and dictionary slots.  [VFun f] is a user callable (a function or a
    bound method) identified by [f]; the other constructors are plain data,
    none of which is callable.  On this universe Python's [==] is structural
    equality.  An [Event] object is not a value of this universe: events
    held as handlers of other events are outside the model. *)
Inductive value :=
  | VNone
  | VInt (z : Z)
  | VStr (s : string)
  | VFun (f : nat).

Global Instance value_eq_dec : EqDecision value.
Proof. solve_decision. Defined.

(** The builtin [callable]. *)
Definition callable (v : value) : bool :=
  match v with
  | VFun _ => true
  | _ => false
  end.

(** What a dictionary slot of a manager holds: a reference to an [Event]
    object, or any other value ([isinstance(value, Event)] tells them
    apart). *)
Inductive entry :=
  | EEvent (e : nat)
  | EOther (v : value).

Global Instance entry_eq_dec : EqDecision entry.
Proof. solve_decision. Defined.

(** The exceptions that the module and the builtins it calls can raise.
    [RuntimeError] is what the interpreter raises when the recursion limit is
    hit; [SystemError] stands for a reference to an object that was never
    allocated, which no Python program can produce. *)
Inductive exn :=
  | StopIteration
  | TypeError
  | ValueError
  | KeyError
  | AttributeError
  | RuntimeError
  | SystemError
  | UserError (n : nat).

Global Instance exn_eq_dec : EqDecision exn.
Proof. solve_decision. Defined.

Inductive res (A : Type) :=
  | Ret (a : A)
  | Raise (x : exn).
Arguments Ret {A} a.
Arguments Raise {A} x.

(** An [Event] object: the list contents and the two attributes set by
    [Event.__init__]. *)
Record Event := mkEvent {
  handlers : list value;
  name : value;
  eventmanager : option nat
}.

(** The store: every allocated [Event] and every allocated [EventManager]
    (its dictionary), in allocation order. *)
Record store := mkStore {
  events : list Event;
  managers : list (gmap string entry)
}.

Definition empty_store : store := mkStore [] [].

(** ** The state-and-exception monad of the mutating methods

    An exception leaves the mutations made before it in place, as in
    Python. *)
Definition M (A : Type) : Type := store → res A * store.

Global Instance M_ret : MRet M := λ A a σ, (Ret a, σ).
Global Instance M_bind : MBind M := λ A B k c σ,
  match c σ with
  | (Ret a, σ') => k a σ'
  | (Raise x, σ') => (Raise x, σ')
  end.

Definition raise {A} (x : exn) : M A := λ σ, (Raise x, σ).
Definition lift {A} (r : store → res A) : M A := λ σ, (r σ, σ).

(** ** Object access *)

Definition read_event (σ : store) (e : nat) : res Event :=
  match events σ !! e with
  | Some ev => Ret ev
  | None => Raise SystemError
  end.

Definition write_event (e : nat) (ev : Event) : M unit := λ σ,
  (Ret (), mkStore (<[e := ev]> (events σ)) (managers σ)).

Definition read_manager (σ : store) (m : nat) : res (gmap string entry) :=
  match managers σ !! m with
  | Some d => Ret d
  | None => Raise SystemError
  end.

Definition write_manager (m : nat) (d : gmap string entry) : M unit := λ σ,
  (Ret (), mkStore (events σ) (<[m := d]> (managers σ))).

(** Attribute assignment on an [Event] object. *)
Definition set_name (e : nat) (v : value) : M unit :=
  ev ← lift (λ σ, read_event σ e);
  write_event e (mkEvent (handlers ev) v (eventmanager ev)).

Definition set_eventmanager (e : nat) (o : option nat) : M unit :=
  ev ← lift (λ σ, read_event σ e);
  write_event e (mkEvent (handlers ev) (name ev) o).

Definition set_handlers (e : nat) (hs : list value) : M unit :=
  ev ← lift (λ σ, read_event σ e);
  write_event e (mkEvent hs (name ev) (eventmanager ev)).

(** ** class Event *)

(** [Event.__init__(self, *args)]: the positional arguments become the list
    contents as they are; the two attributes start as [None]. *)
Definition Event_init (args : list value) : M nat := λ σ,
  (Ret (length (events σ)),
   mkStore (events σ ++ [mkEvent args VNone None]) (managers σ)).

(** [Event.clear]: [del self[:]]. *)
Definition Event_clear (e : nat) : M unit := set_handlers e [].

(** [list.append]. *)
Definition list_append (e : nat) (x : value) : M unit :=
  ev ← lift (λ σ, read_event σ e);
  set_handlers e (handlers ev ++ [x]).

(** [Event.add_handler]. *)
Definition add_handler (e : nat) (handler : value) : M unit :=
  if negb (callable handler) then raise TypeError
  else list_append e handler.

(** The search of [list.remove]: drop the first element equal to [x]; [None]
    when there is none. *)
Fixpoint remove_first (x : value) (l : list value) : option (list value) :=
  match l with
  | [] => None
  | y :: l' =>
      if decide (y = x) then Some l'
      else cons y <$> remove_first x l'
  end.

(** [list.remove]: raises [ValueError] when the element is absent. *)
Definition list_remove (e : nat) (x : value) : M unit :=
  ev ← lift (λ σ, read_event σ e);
  match remove_first x (handlers ev) with
  | Some l => set_handlers e l
  | None => raise ValueError
  end.

(** [Event.remove_handler]. *)
Definition remove_handler (e : nat) (handler : value) : M unit :=
  list_remove e handler.

(** ** Calls *)

(** The arguments of a call: [*args] and [**kwargs]. *)
Record call_args := mkArgs {
  positional : list value;
  keywords : list (string * value)
}.

(** [(x, *args, **kwargs)]: one more positional argument in front. *)
Definition prepend (x : value) (a : call_args) : call_args :=
  mkArgs (x :: positional a) (keywords a).

(** What a dispatch leaves in the log, in the order it happened: a call of
    [Event.fire] on an object, and the invocation of a handler. *)
Inductive obs :=
  | Fired (e : nat) (a : call_args)
  | Called (h : value) (a : call_args).

(** The part of the world a handler lives in: the state of the user's
    program and the log. *)
Record world (U : Type) := mkWorld {
  user : U;
  log : list obs
}.
Arguments mkWorld {U} user log.
Arguments user {U} w.
Arguments log {U} w.

(** Names that ordinary attribute lookup finds on an [EventManager] instance
    before [__getattr__] is consulted.  The instance dictionary stays empty
    ([__setattr__] sends every assignment to the items), so these are the
    attributes of the class, as [dir] lists them on an instance under
    Python 2.7: those of [dict] (and of [object]), then what a class
    statement adds, then the methods the class defines itself. *)
Definition dict_attrs : list string :=
  ["__class__"; "__cmp__"; "__contains__"; "__delattr__"; "__delitem__";
   "__doc__"; "__eq__"; "__format__"; "__ge__"; "__getattribute__";
   "__getitem__"; "__gt__"; "__hash__"; "__init__"; "__iter__"; "__le__";
   "__len__"; "__lt__"; "__ne__"; "__new__"; "__reduce__"; "__reduce_ex__";
   "__repr__"; "__setattr__"; "__setitem__"; "__sizeof__"; "__str__";
   "__subclasshook__";
   "clear"; "copy"; "fromkeys"; "get"; "has_key"; "items";
   "iteritems"; "iterkeys"; "itervalues"; "keys"; "pop"; "popitem";
   "setdefault"; "update"; "values"; "viewitems"; "viewkeys"; "viewvalues"].

Definition class_attrs : list string :=
  dict_attrs ++ ["__dict__"; "__module__"; "__weakref__"]
             ++ ["__getattr__"; "apply"].

Definition class_attr (s : string) : bool := bool_decide (s ∈ class_attrs).

(** What an attribute read on a manager yields. *)
Inductive attr :=
  | ClassAttr (s : string)
  | Stored (en : entry).

(** [dict.__getitem__]: there is no [__missing__], so an absent key raises
    [KeyError]. *)
Definition dict_getitem (σ : store) (m : nat) (key : string) : res entry :=
  match read_manager σ m with
  | Ret d =>
      match d !! key with
      | Some en => Ret en
      | None => Raise KeyError
      end
  | Raise x => Raise x
  end.

(** [EventManager.__getattr__(self, name)]: [return self[name]]. *)
Definition EventManager_getattr (m : nat) (s : string) : M entry :=
  lift (λ σ, dict_getitem σ m s).

(** The attribute read [self.<s>] on a manager: the class is searched first
    and [__getattr__] is the fallback. *)
Definition getattr (σ : store) (m : nat) (s : string) : res attr :=
  if class_attr s then Ret (ClassAttr s)
  else
    match fst (EventManager_getattr m s σ) with
    | Ret en => Ret (Stored en)
    | Raise x => Raise x
    end.

(** Truth value of [self.eventmanager]: [None] is false, and a manager is a
    [dict], true when it is not empty. *)
Definition truthy (σ : store) (o : option nat) : res bool :=
  match o with
  | None => Ret false
  | Some m =>
      match read_manager σ m with
      | Ret d => Ret (negb (Nat.eqb (size d) 0))
      | Raise x => Raise x
      end
  end.

Section Dispatch.

(** The user's program: its state, and what each callable does with its
    arguments in a given state: return ([None]) or raise.  Handlers act on
    the user's state; they do not reach into the store of events and
    managers. *)
Context {U : Type}.
Variable beh : nat → call_args → U → option exn * U.

(** The call of a handler with the arguments: a user callable is logged and run; calling
    anything else is a [TypeError]. *)
Definition call_value (h : value) (a : call_args) (w : world U)
  : res unit * world U :=
  match h with
  | VFun f =>
      let '(r, u) := beh f a (user w) in
      (match r with None => Ret () | Some x => Raise x end,
       mkWorld u (log w ++ [Called h a]))
  | _ => (Raise TypeError, w)
  end.

(** The loop of [Event.fire] over the handlers, first to last;
    [StopIteration] from a handler ends the loop, any other exception
    leaves it. *)
Fixpoint dispatch (hs : list value) (a : call_args) (w : world U)
  : res unit * world U :=
  match hs with
  | [] => (Ret (), w)
  | handler :: rest =>
      match call_value handler a w with
      | (Ret _, w') => dispatch rest a w'
      | (Raise StopIteration, w') => (Ret (), w')
      | (Raise x, w') => (Raise x, w')
      end
  end.

(** The first statement of [Event.fire]: when [self.eventmanager] is true,
    [self.eventmanager.got_event(self.name, *args, **kwargs)].  The callee
    is whatever the attribute read returns; [fire'] is [Event.__call__] of
    an [Event] found there. *)
Definition notify
  (fire' : nat → call_args → world U → res unit * world U)
  (σ : store) (ev : Event) (a : call_args) (w : world U)
  : res unit * world U :=
  match truthy σ (eventmanager ev) with
  | Raise x => (Raise x, w)
  | Ret false => (Ret (), w)
  | Ret true =>
      match eventmanager ev with
      | None => (Ret (), w)
      | Some m =>
          match getattr σ m "got_event" with
          | Raise x => (Raise x, w)
          | Ret (Stored (EEvent g)) => fire' g (prepend (name ev) a) w
          | Ret (Stored (EOther v)) => call_value v (prepend (name ev) a) w
          | Ret (ClassAttr _) => (Raise TypeError, w)
          end
      end
  end.

(** [Event.fire(self, *args, **kwargs)]; [Event.__call__] is the same.
    [fuel] is the interpreter's recursion limit, counted in nested calls of
    [fire]: running out of it is [RuntimeError]. *)
Fixpoint fire (fuel : nat) (σ : store) (e : nat) (a : call_args)
  (w : world U) : res unit * world U :=
  match fuel with
  | 0 => (Raise RuntimeError, w)
  | S fuel' =>
      match read_event σ e with
      | Raise x => (Raise x, w)
      | Ret ev =>
          let w0 := mkWorld (user w) (log w ++ [Fired e a]) in
          match notify (fire fuel' σ) σ ev a w0 with
          | (Ret _, w1) => dispatch (handlers ev) a w1
          | (Raise x, w1) => (Raise x, w1)
          end
      end
  end.

End Dispatch.

(** ** class EventManager *)

(** [dict.__init__] on a new object: the initial items are stored as they
    are. *)
Definition dict_init (init : gmap string entry) : M nat := λ σ,
  (Ret (length (managers σ)), mkStore (events σ) (managers σ ++ [init])).

(** [dict.__setitem__]. *)
Definition dict_setitem (m : nat) (key : string) (en : entry) : M unit :=
  d ← lift (λ σ, read_manager σ m);
  write_manager m (<[key := en]> d).

(** [EventManager.__setitem__]: an [Event] is stamped with the key and the
    manager, then the item is stored whatever it is. *)
Definition EventManager_setitem (m : nat) (key : string) (en : entry)
  : M unit :=
  match en with
  | EEvent e => set_name e (VStr key) ;; set_eventmanager e (Some m)
  | EOther _ => mret ()
  end ;;
  dict_setitem m key en.

(** [EventManager.__setattr__(self, name, value)]: [self[name] = value]. *)
Definition EventManager_setattr (m : nat) (s : string) (en : entry)
  : M unit :=
  EventManager_setitem m s en.

(** Attribute assignment on whatever an attribute read returned; only an
    [Event] object is ever the target in this module. *)
Definition assign_name (t : attr) (v : value) : M unit :=
  match t with
  | Stored (EEvent e) => set_name e v
  | _ => raise AttributeError
  end.

Definition assign_eventmanager (t : attr) (o : option nat) : M unit :=
  match t with
  | Stored (EEvent e) => set_eventmanager e o
  | _ => raise AttributeError
  end.

(** [EventManager.__init__(self, *args, **kwargs)]. *)
Definition EventManager_init (init : gmap string entry) : M nat :=
  m ← dict_init init;
  g ← Event_init [];
  EventManager_setattr m "got_event" (EEvent g) ;;
  t ← lift (λ σ, getattr σ m "got_event");
  assign_name t (VStr "GLOBAL") ;;
  t' ← lift (λ σ, getattr σ m "got_event");
  assign_eventmanager t' None ;;
  mret m.

(** The builtin [hasattr] on a manager, as Python 2 defines it: false when
    the attribute read raises, whatever it raises (here the [KeyError] of
    [__getattr__]).  The module is Python 2 code: the example of [apply] in
    the class docstring needs [hasattr] to answer false for a name that has
    no item. *)
Definition hasattr (σ : store) (m : nat) (s : string) : bool :=
  match getattr σ m s with
  | Ret _ => true
  | Raise _ => false
  end.

(** The method call [self[method].add_handler(h)] on whatever the item read
    returned: plain data has no such method. *)
Definition invoke_add_handler (t : entry) (h : value) : M unit :=
  match t with
  | EEvent e => add_handler e h
  | EOther _ => raise AttributeError
  end.

(** [EventManager.apply(self, events)].  The object [events] is given by its
    members, the pairs of a name of [dir(events)] and the value
    [getattr(events, name)], in the order of [dir]. *)
Fixpoint EventManager_apply (m : nat) (members : list (string * value))
  : M unit :=
  match members with
  | [] => mret ()
  | (method, v) :: rest =>
      if negb (callable v) then EventManager_apply m rest
      else if String.prefix "_" method then EventManager_apply m rest
      else
        has ← lift (λ σ, Ret (hasattr σ m method));
        (if negb has then
           ev ← Event_init [];
           EventManager_setitem m method (EEvent ev)
         else mret ()) ;;
        t ← lift (λ σ, dict_getitem σ m method);
        invoke_add_handler t v ;;
        EventManager_apply m rest
  end.

(** ** Vocabulary of the statements *)

Section Outcomes.

Context {U : Type}.
Variable beh : nat → call_args → U → option exn * U.

(** The handler is a user callable that returns, whatever the state. *)
Definition returns (a : call_args) (h : value) : Prop :=
  ∃ f, h = VFun f ∧ ∀ u, (beh f a u).1 = None.

(** The handler is a user callable that raises [x], whatever the state. *)
Definition raises (x : exn) (a : call_args) (h : value) : Prop :=
  ∃ f, h = VFun f ∧ ∀ u, (beh f a u).1 = Some x.



End Outcomes.

(** The log entries of invoking the handlers [hs], one after the other, each
    once, with the arguments [a]. *)
Definition calls (hs : list value) (a : call_args) : list obs :=
  (λ h, Called h a) <$> hs.

(** The number of calls of [Event.fire] in a log. *)
Definition is_fired (o : obs) : bool :=
  match o with
  | Fired _ _ => true
  | Called _ _ => false
  end.

Definition fired_count (l : list obs) : nat :=
  length (List.filter is_fired l).

(** The global event of a manager: the [Event] that the attribute read
    [m.got_event] returns. *)
Definition global_event (σ : store) (m : nat) : option nat :=
  match getattr σ m "got_event" with
  | Ret (Stored (EEvent g)) => Some g
  | _ => None
  end.

(** "Firing the global event of the manager never fires the global event
    again": whatever the recursion limit left, the call logs one call of
    [fire], its own. *)
Definition global_event_never_refires {U}
  (beh : nat → call_args → U → option exn * U) (σ : store) (m : nat) : Prop :=
  ∀ g fuel a w,
    global_event σ m = Some g →
    fired_count (log (fire beh (S fuel) σ g a w).2) = S (fired_count (log w)).

(** "The global event is never stored as a regular entry of the mapping": no
    item of the manager's dictionary refers to the manager's global event. *)
Definition global_event_kept_apart (σ : store) (m : nat) : Prop :=
  ∀ g d k,
    global_event σ m = Some g →
    managers σ !! m = Some d →
    d !! k ≠ Some (EEvent g).

(** "Reading an unset name creates a new empty member event under that name
    rather than failing": the read returns an event, which is afterwards
    stored under the name, has no handlers and belongs to the manager. *)
Definition vivifies_on_read (σ : store) (m : nat) (s : string) : Prop :=
  ∃ e σ' d,
    EventManager_getattr m s σ = (Ret (EEvent e), σ') ∧
    managers σ' !! m = Some d ∧
    d !! s = Some (EEvent e) ∧
    events σ' !! e = Some (mkEvent [] (VStr s) (Some m)).

(** The state a manager is constructed in, as an invariant: the global event
    of manager [m] is the event [g], and [g] has no manager. *)
Definition global_unowned (m g : nat) (σ : store) : Prop :=
  global_event σ m = Some g ∧
  ∃ gv, events σ !! g = Some gv ∧ eventmanager gv = None.

(** A triple for the monad: from a store in [P], the computation ends in [Q]
    when it returns and in [E] when it raises. *)
Definition triple {A} (P : store → Prop) (c : M A)
  (Q : A → store → Prop) (E : store → Prop) : Prop :=
  ∀ σ, P σ →
    match c σ with
    | (Ret a, σ') => Q a σ'
    | (Raise _, σ') => E σ'
    end.

(** The computation leaves [global_unowned m g] in place, whether it returns
    or raises. *)
Definition preserves_global {A} (m g : nat) (c : M A) : Prop :=
  triple (global_unowned m g) c (λ _, global_unowned m g) (global_unowned m g).

(** The calls a client can make on the two classes. *)
Inductive command :=
  | NewEvent (args : list value)
  | Clear (e : nat)
  | AddHandler (e : nat) (h : value)
  | RemoveHandler (e : nat) (h : value)
  | NewManager (init : gmap string entry)
  | SetItem (m : nat) (key : string) (en : entry)
  | Apply (m : nat) (members : list (string * value)).

Definition exec (c : command) : M unit :=
  match c with
  | NewEvent args => Event_init args ;; mret ()
  | Clear e => Event_clear e
  | AddHandler e h => add_handler e h
  | RemoveHandler e h => remove_handler e h
  | NewManager init => EventManager_init init ;; mret ()
  | SetItem m key en => EventManager_setitem m key en
  | Apply m members => EventManager_apply m members
  end.

(** The store after a sequence of calls; a call that raises keeps what it had
    done and the client goes on. *)
Definition run (cs : list command) (σ : store) : store :=
  foldl (λ σ c, (exec c σ).2) σ cs.

(** The calls that leave the global event [g] of manager [m] alone: every
    call but the assignment of [g] itself to an item of some manager, and
    the assignment of the item [got_event] of [m]. *)
Definition keeps (m g : nat) (c : command) : Prop :=
  match c with
  | SetItem m' key en => en ≠ EEvent g ∧ (m' = m → key ≠ "got_event")
  | _ => True
  end.

(** The members that [apply] registers: the callable ones whose name has no
    leading underscore. *)
Definition registered (p : string * value) : bool :=
  callable p.2 && negb (String.prefix "_" p.1).

(** The methods that [apply] hands to event [e] when every public method
    name of the object already has an item in the dictionary [d]: those
    whose name holds [e], in the order of the members. *)
Definition handed_to (d : gmap string entry) (e : nat)
  (members : list (string * value)) : list value :=
  omap (λ p, if registered p && bool_decide (d !! p.1 = Some (EEvent e))
             then Some p.2 else None) members.

(** ** Scenarios

    Small programs against the module, run from the empty store; the
    statements below are instantiated on them. *)

(** Every user callable returns. *)
Definition quiet : nat → call_args → unit → option exn * unit :=
  λ _ _ u, (None, u).

(** The user callable [k] raises [StopIteration]; the others return. *)
Definition stopping (k : nat) : nat → call_args → unit → option exn * unit :=
  λ f _ u, (if decide (f = k) then Some StopIteration else None, u).


Definition args12 : call_args := mkArgs [VInt 1; VInt 2] [].

Definition start : world unit := mkWorld () [].

(** [e = Event(); e.add_handler(h1); e.add_handler(h2); e.add_handler(h3)];
    the event is object 0. *)
Definition three_handlers : M unit :=
  e ← Event_init [];
  add_handler e (VFun 1) ;;
  add_handler e (VFun 2) ;;
  add_handler e (VFun 3).

(** [m = EventManager(); e = Event(); e.add_handler(h1); e.add_handler(h2);
    e.add_handler(h3); m.foo = e; m.got_event.add_handler(h9)]; the manager
    is object 0 of its kind, its global event is event 0 and [foo] is
    event 1. *)
Definition manager_with_foo : M unit :=
  m ← EventManager_init ∅;
  e ← Event_init [];
  add_handler e (VFun 1) ;;
  add_handler e (VFun 2) ;;
  add_handler e (VFun 3) ;;
  EventManager_setattr m "foo" (EEvent e) ;;
  g ← EventManager_getattr m "got_event";
  invoke_add_handler g (VFun 9).

Definition foo_store : store := (manager_with_foo empty_store).2.

Definition foo_event : Event :=
  mkEvent [VFun 1; VFun 2; VFun 3] (VStr "foo") (Some 0).

Definition foo_global : Event := mkEvent [VFun 9] (VStr "GLOBAL") None.

Definition foo_dict : gmap string entry :=
  <["foo" := EEvent 1]> {["got_event" := EEvent 0]}.

(** The log once [foo(1, 2)] has notified the manager. *)
Definition foo_notified : world unit :=
  mkWorld () [Fired 1 args12;
              Fired 0 (prepend (VStr "foo") args12);
              Called (VFun 9) (prepend (VStr "foo") args12)].

(** The members of an object with three public methods, [a], [keys] and
    [z], a constructor and a data attribute, as [dir] lists them. *)
Definition keys_object : list (string * value) :=
  [("__init__", VFun 0); ("a", VFun 1); ("count", VInt 0);
   ("keys", VFun 2); ("z", VFun 3)].

(** [m = EventManager()]. *)
Definition fresh_manager : store := (EventManager_init ∅ empty_store).2.

(** The user callable [k] raises [x]; the others return. *)
Definition failing (k : nat) (x : exn)
  : nat → call_args → unit → option exn * unit :=
  λ f _ u, (if decide (f = k) then Some x else None, u).

(** An event that belongs to manager 0, whose dictionary has been emptied
    ([dict.clear]). *)
Definition emptied_store : store :=
  mkStore [mkEvent [VFun 1] (VStr "foo") (Some 0)] [∅].

(** An event that belongs to manager 0, whose item [got_event] has been
    deleted ([del m["got_event"]]). *)
Definition no_global_store : store :=
  mkStore [mkEvent [VFun 1] (VStr "foo") (Some 0)] [{["foo" := EEvent 0]}].

(** [m = EventManager(); e = Event(h1)]: the manager is object 0 of its
    kind, its global event is event 0, and [e], event 1, is not stored
    anywhere. *)
Definition manager_and_event : store :=
  ((m ← EventManager_init ∅; Event_init [VFun 1]) empty_store).2.

(** [m1 = EventManager(); m2 = EventManager(); e = Event(h1); m1.ping = e]:
    the managers are objects 0 and 1 of their kind, their global events are
    events 0 and 1, and [e] is event 2. *)
Definition two_managers : store :=
  ((m1 ← EventManager_init ∅;
    m2 ← EventManager_init ∅;
    e ← Event_init [VFun 1];
    EventManager_setattr m1 "ping" (EEvent e)) empty_store).2.

(** [m = EventManager(); m["a"] = 5]. *)
Definition manager_with_value : store :=
  ((m ← EventManager_init ∅;
    EventManager_setitem m "a" (EOther (VInt 5))) empty_store).2.

(** The members of an object with a constructor and a data attribute only,
    and of one with the public methods [a] and [b] besides. *)
Definition plain_object : list (string * value) :=
  [("__init__", VFun 0); ("count", VInt 0)].

Definition ab_object : list (string * value) :=
  [("__init__", VFun 0); ("a", VFun 1); ("b", VFun 2); ("count", VInt 0)].

(** [m = EventManager(); m.apply(obj)] for that second object: the events
    [a] and [b] are events 1 and 2. *)
Definition applied_once : store :=
  (EventManager_apply 0 ab_object fresh_manager).2.

Definition applied_dict : gmap string entry :=
  <["b" := EEvent 2]> (<["a" := EEvent 1]> {["got_event" := EEvent 0]}).


(** [m = EventManager(); e = Event(h1); m.got_event = e], as a client's
    calls. *)
Definition reassigned_store : store :=
  run [NewManager ∅; NewEvent [VFun 1]; SetItem 0 "got_event" (EEvent 1)]
      empty_store.

(** A client's calls on a new manager that leave its global event alone:
    an event is created, given a handler and stored as [ping], the global
    event gets two handlers, an object is applied, a handler that is not
    there is removed (this raises). *)
Definition busy_client : list command :=
  [NewEvent []; AddHandler 1 (VFun 1); SetItem 0 "ping" (EEvent 1);
   AddHandler 0 (VFun 8); AddHandler 0 (VFun 9);
   Apply 0 [("a", VFun 2); ("got_event", VFun 3); ("keys", VFun 4)];
   RemoveHandler 1 (VFun 7)].

(** The global event after these calls: its two handlers, and the method
    [got_event] of the applied object. *)
Definition busy_global : Event :=
  mkEvent [VFun 8; VFun 9; VFun 3] (VStr "GLOBAL") None.

(** * Properties *)

(** ** The monad *)

Lemma bind_ret {A B} (c : M A) (k : A → M B) σ a σ' :
  c σ = (Ret a, σ') → (c ≫= k) σ = k a σ'.
Proof. intros H. unfold mbind, M_bind. by rewrite H. Qed.

Lemma bind_raise {A B} (c : M A) (k : A → M B) σ x σ' :
  c σ = (Raise x, σ') → (c ≫= k) σ = (Raise x, σ').
Proof. intros H. unfold mbind, M_bind. by rewrite H. Qed.

Lemma lift_read_event σ e ev :
  events σ !! e = Some ev → lift (λ σ, read_event σ e) σ = (Ret ev, σ).
Proof. intros H. unfold lift, read_event. by rewrite H. Qed.

Lemma lift_read_manager σ m d :
  managers σ !! m = Some d → lift (λ σ, read_manager σ m) σ = (Ret d, σ).
Proof. intros H. unfold lift, read_manager. by rewrite H. Qed.

(** ** class Event: registration *)

Lemma set_handlers_eq σ e ev hs :
  events σ !! e = Some ev →
  set_handlers e hs σ =
    (Ret (), mkStore (<[e := mkEvent hs (name ev) (eventmanager ev)]> (events σ))
                     (managers σ)).
Proof.
  intros H. unfold set_handlers.
  by rewrite (bind_ret _ _ _ _ _ (lift_read_event _ _ _ H)).
Qed.

Lemma add_handler_callable σ e ev f :
  events σ !! e = Some ev →
  add_handler e (VFun f) σ =
    (Ret (), mkStore (<[e := mkEvent (handlers ev ++ [VFun f]) (name ev)
                                     (eventmanager ev)]> (events σ))
                     (managers σ)).
Proof.
  intros H. unfold add_handler, list_append. simpl.
  rewrite (bind_ret _ _ _ _ _ (lift_read_event _ _ _ H)).
  by apply set_handlers_eq.
Qed.

(** C6.  [add_handler] with a value that is not callable raises [TypeError]
    (the spec's InvalidHandlerError) and leaves the store, hence the handler
    list of every event, as it was. *)
Theorem add_handler_rejects_non_callable (σ : store) (e : nat) (v : value) :
  callable v = false →
  add_handler e v σ = (Raise TypeError, σ).
Proof.
  intros Hv. unfold add_handler. by rewrite Hv.
Qed.

Lemma add_handler_rejects_non_callable_witness :
  add_handler 0 (VInt 5) (three_handlers empty_store).2
  = (Raise TypeError, (three_handlers empty_store).2).
Proof.
  apply (add_handler_rejects_non_callable _ 0 (VInt 5)). reflexivity.
Defined.

(** The search of [list.remove] against the list. *)
Lemma remove_first_None (x : value) (l : list value) :
  x ∉ l → remove_first x l = None.
Proof.
  induction l as [|y l IH]; intros Hx; simpl; [done|].
  apply not_elem_of_cons in Hx as [Hne Hx].
  destruct (decide (y = x)) as [->|_]; [done|].
  by rewrite (IH Hx).
Qed.

Lemma remove_first_Some (x : value) (l : list value) :
  x ∈ l →
  ∃ l1 l2 : list value, l = l1 ++ (x :: l2) ∧ (x ∉ l1) ∧ remove_first x l = Some (l1 ++ l2).
Proof.
  induction l as [|y l IH]; intros Hx; [by apply elem_of_nil in Hx|].
  simpl. destruct (decide (y = x)) as [->|Hne].
  - exists [], l. split_and!; [done | apply not_elem_of_nil | done].
  - apply elem_of_cons in Hx as [->|Hx]; [done|].
    destruct (IH Hx) as (l1 & l2 & -> & Hl1 & ->).
    exists (y :: l1), l2. split_and!; [done | | done].
    apply not_elem_of_cons. split; [congruence | done].
Qed.

(** C7.  [remove_handler] of a value that is not in the handler list raises
    [ValueError] (the spec's HandlerNotFoundError) and leaves the store as it
    was; of a value that is in the list, it removes the first occurrence and
    nothing else. *)
Theorem remove_handler_first_occurrence
  (σ : store) (e : nat) (ev : Event) (x : value) :
  events σ !! e = Some ev →
  (x ∉ handlers ev → remove_handler e x σ = (Raise ValueError, σ)) ∧
  (x ∈ handlers ev →
   ∃ l1 l2 : list value,
     handlers ev = l1 ++ (x :: l2) ∧ (x ∉ l1) ∧
     remove_handler e x σ =
       (Ret (), mkStore (<[e := mkEvent (l1 ++ l2) (name ev)
                                        (eventmanager ev)]> (events σ))
                        (managers σ))).
Proof.
  intros He. unfold remove_handler, list_remove.
  rewrite (bind_ret _ _ _ _ _ (lift_read_event _ _ _ He)).
  split; intros Hx.
  - by rewrite (remove_first_None _ _ Hx).
  - destruct (remove_first_Some _ _ Hx) as (l1 & l2 & Hl & Hl1 & ->).
    exists l1, l2. split_and!; [done | done |].
    by apply set_handlers_eq.
Qed.

Lemma remove_handler_first_occurrence_witness :
  remove_handler 0 (VFun 7) (three_handlers empty_store).2
    = (Raise ValueError, (three_handlers empty_store).2) ∧
  (remove_handler 0 (VFun 2) (three_handlers empty_store).2).1 = Ret ().
Proof.
  pose proof (remove_handler_first_occurrence
                (three_handlers empty_store).2 0
                (mkEvent [VFun 1; VFun 2; VFun 3] VNone None)) as H.
  split.
  - apply (H (VFun 7) eq_refl). vm_compute.
    intros Hin. repeat (apply elem_of_cons in Hin as [Hin|Hin]; [discriminate|]).
    by apply elem_of_nil in Hin.
  - destruct (proj2 (H (VFun 2) eq_refl)) as (l1 & l2 & _ & _ & ->); [|done].
    vm_compute. apply elem_of_cons; right. apply elem_of_cons; by left.
Defined.

(** C10.  [Event(v)] succeeds for every value [v], callable or not, and the
    new event's handler list is [[v]]: the constructor does not check its
    arguments, while [add_handler] refuses the same value when it is not
    callable. *)
Theorem Event_init_unchecked (σ : store) (v : value) :
  ∃ e σ',
    Event_init [v] σ = (Ret e, σ') ∧
    events σ' !! e = Some (mkEvent [v] VNone None) ∧
    (callable v = false → add_handler e v σ' = (Raise TypeError, σ')).
Proof.
  exists (length (events σ)), (mkStore (events σ ++ [mkEvent [v] VNone None])
                                   (managers σ)).
  split_and!; [done | | ].
  - simpl. by rewrite lookup_app_r, Nat.sub_diag.
  - intros Hv. unfold add_handler. by rewrite Hv.
Qed.

Lemma Event_init_unchecked_witness :
  ∃ e σ',
    Event_init [VInt 5] empty_store = (Ret e, σ') ∧
    events σ' !! e = Some (mkEvent [VInt 5] VNone None) ∧
    (callable (VInt 5) = false → add_handler e (VInt 5) σ' = (Raise TypeError, σ')).
Proof. exact (Event_init_unchecked empty_store (VInt 5)). Defined.

(** ** class Event: dispatch *)

Section DispatchProperties.

Context {U : Type}.
Variable beh : nat → call_args → U → option exn * U.

Lemma call_value_returns a h w :
  returns beh a h →
  ∃ u, call_value beh h a w = (Ret (), mkWorld u (log w ++ [Called h a])).
Proof.
  intros (f & -> & Hf). simpl.
  specialize (Hf (user w)). destruct (beh f a (user w)) as [r u].
  simpl in Hf. subst r. by exists u.
Qed.

Lemma call_value_raises x a h w :
  raises beh x a h →
  ∃ u, call_value beh h a w = (Raise x, mkWorld u (log w ++ [Called h a])).
Proof.
  intros (f & -> & Hf). simpl.
  specialize (Hf (user w)). destruct (beh f a (user w)) as [r u].
  simpl in Hf. subst r. by exists u.
Qed.



(** Whatever the handlers do, the loop logs the invocation of a prefix of
    the handler list, in order, and nothing else. *)
Lemma dispatch_log hs a w :
  ∃ k, log (dispatch beh hs a w).2 = log w ++ calls (take k hs) a.
Proof.
  revert w. induction hs as [|h hs IH]; intros w.
  - exists 0. simpl. by rewrite app_nil_r.
  - simpl. destruct h as [| z | s | f];
      try (exists 0; simpl; by rewrite app_nil_r).
    simpl. destruct (beh f a (user w)) as [[x|] u].
    + exists 1. by destruct x.
    + destruct (IH (mkWorld u (log w ++ [Called (VFun f) a]))) as [k Hk].
      exists (S k). rewrite Hk. simpl. by rewrite <- app_assoc.
Qed.

(** The loop never lets [StopIteration] out. *)
Lemma dispatch_swallows_stop hs a w :
  (dispatch beh hs a w).1 ≠ Raise StopIteration.
Proof.
  revert w. induction hs as [|h hs IH]; intros w; simpl; [done|].
  destruct (call_value beh h a w) as [[[]|x] w']; [apply IH|].
  by destruct x.
Qed.

Lemma fire_unfold fuel σ e ev a w :
  events σ !! e = Some ev →
  fire beh (S fuel) σ e a w =
    match notify beh (fire beh fuel σ) σ ev a
                 (mkWorld (user w) (log w ++ [Fired e a])) with
    | (Ret _, w1) => dispatch beh (handlers ev) a w1
    | (Raise x, w1) => (Raise x, w1)
    end.
Proof. intros He. simpl. unfold read_event. by rewrite He. Qed.

(** An event without a manager notifies nobody. *)
Lemma notify_unowned fire' σ ev a w :
  eventmanager ev = None → notify beh fire' σ ev a w = (Ret (), w).
Proof. intros H. unfold notify. by rewrite H. Qed.




End DispatchProperties.

(** ** class EventManager: the store after each method *)

Lemma lookup_at_end {A} (l : list A) (x : A) : (l ++ [x]) !! length l = Some x.
Proof. by rewrite lookup_app_r, Nat.sub_diag. Qed.

Lemma insert_at_end {A} (l : list A) (x y : A) :
  <[length l := y]> (l ++ [x]) = l ++ [y].
Proof. by rewrite insert_app_r_alt, Nat.sub_diag. Qed.

Lemma set_name_eq σ e ev v :
  events σ !! e = Some ev →
  set_name e v σ =
    (Ret (), mkStore (<[e := mkEvent (handlers ev) v (eventmanager ev)]> (events σ))
                     (managers σ)).
Proof.
  intros H. unfold set_name.
  by rewrite (bind_ret _ _ _ _ _ (lift_read_event _ _ _ H)).
Qed.

Lemma set_eventmanager_eq σ e ev o :
  events σ !! e = Some ev →
  set_eventmanager e o σ =
    (Ret (), mkStore (<[e := mkEvent (handlers ev) (name ev) o]> (events σ))
                     (managers σ)).
Proof.
  intros H. unfold set_eventmanager.
  by rewrite (bind_ret _ _ _ _ _ (lift_read_event _ _ _ H)).
Qed.

Lemma dict_setitem_eq σ m d k en :
  managers σ !! m = Some d →
  dict_setitem m k en σ =
    (Ret (), mkStore (events σ) (<[m := <[k := en]> d]> (managers σ))).
Proof.
  intros H. unfold dict_setitem.
  by rewrite (bind_ret _ _ _ _ _ (lift_read_manager _ _ _ H)).
Qed.

(** Storing an [Event] stamps it with the key and the manager. *)
Lemma EventManager_setitem_event σ m d k e ev :
  events σ !! e = Some ev →
  managers σ !! m = Some d →
  EventManager_setitem m k (EEvent e) σ =
    (Ret (), mkStore (<[e := mkEvent (handlers ev) (VStr k) (Some m)]> (events σ))
                     (<[m := <[k := EEvent e]> d]> (managers σ))).
Proof.
  intros He Hm. unfold EventManager_setitem.
  erewrite bind_ret; last first.
  { erewrite bind_ret; last by apply set_name_eq.
    apply set_eventmanager_eq. simpl.
    apply list_lookup_insert_eq. by eapply lookup_lt_Some. }
  erewrite dict_setitem_eq; last done.
  simpl. by rewrite list_insert_insert_eq.
Qed.

(** Storing anything else stamps nothing. *)
Lemma EventManager_setitem_other σ m d k v :
  managers σ !! m = Some d →
  EventManager_setitem m k (EOther v) σ =
    (Ret (), mkStore (events σ) (<[m := <[k := EOther v]> d]> (managers σ))).
Proof.
  intros Hm. unfold EventManager_setitem.
  erewrite bind_ret; last done. by apply dict_setitem_eq.
Qed.

Lemma class_attr_got_event : class_attr "got_event" = false.
Proof. reflexivity. Qed.

Lemma getattr_got_event σ m d en :
  managers σ !! m = Some d →
  d !! "got_event" = Some en →
  getattr σ m "got_event" = Ret (Stored en).
Proof.
  intros Hm Hd. unfold getattr. rewrite class_attr_got_event. simpl.
  unfold dict_getitem, read_manager. by rewrite Hm, Hd.
Qed.

(** The constructor, in one step. *)
Lemma EventManager_init_eq σ init :
  EventManager_init init σ =
    (Ret (length (managers σ)),
     mkStore (events σ ++ [mkEvent [] (VStr "GLOBAL") None])
             (managers σ ++ [<["got_event" := EEvent (length (events σ))]> init])).
Proof.
  unfold EventManager_init.
  erewrite bind_ret; last done.
  erewrite bind_ret; last done.
  erewrite bind_ret; last first.
  { unfold EventManager_setattr. eapply EventManager_setitem_event; simpl.
    - apply lookup_at_end.
    - apply lookup_at_end. }
  simpl. rewrite !insert_at_end.
  erewrite bind_ret; last first.
  { unfold lift. erewrite getattr_got_event; [done | apply lookup_at_end |].
    apply lookup_insert_eq. }
  erewrite bind_ret; last first.
  { simpl. eapply set_name_eq. apply lookup_at_end. }
  simpl. rewrite insert_at_end.
  erewrite bind_ret; last first.
  { unfold lift. erewrite getattr_got_event; [done | apply lookup_at_end |].
    apply lookup_insert_eq. }
  erewrite bind_ret; last first.
  { simpl. eapply set_eventmanager_eq. apply lookup_at_end. }
  simpl. by rewrite insert_at_end.
Qed.

(** The constructor leaves a global event without a manager. *)
Lemma EventManager_init_global σ init :
  ∃ m g σ',
    EventManager_init init σ = (Ret m, σ') ∧
    global_event σ' m = Some g ∧
    events σ' !! g = Some (mkEvent [] (VStr "GLOBAL") None).
Proof.
  eexists _, _, _. split; [apply EventManager_init_eq|]. split.
  - unfold global_event.
    erewrite getattr_got_event;
      [ | apply lookup_at_end | apply lookup_insert_eq ].
    done.
  - apply lookup_at_end.
Qed.

(** C4, as stated, fails on a manager that was just constructed: its
    dictionary has an item that refers to its global event. *)
Lemma global_event_kept_apart_fails :
  ¬ global_event_kept_apart fresh_manager 0.
Proof.
  intros H.
  apply (H 0 {["got_event" := EEvent 0]} "got_event"); reflexivity.
Qed.

(** C4, amended.  The global event is a regular item of the dictionary:
    after construction the dictionary holds the constructor's initial items
    and, under the key [got_event], a reference to the global event, a new
    event named GLOBAL with no manager and no handlers; [m.got_event] reads
    that item. *)
Theorem EventManager_init_stores_global (σ : store) (init : gmap string entry) :
  ∃ m g σ',
    EventManager_init init σ = (Ret m, σ') ∧
    managers σ' !! m = Some (<["got_event" := EEvent g]> init) ∧
    global_event σ' m = Some g ∧
    events σ !! g = None ∧
    events σ' !! g = Some (mkEvent [] (VStr "GLOBAL") None).
Proof.
  eexists _, _, _. split; [apply EventManager_init_eq|]. split_and!.
  - apply lookup_at_end.
  - unfold global_event.
    erewrite getattr_got_event;
      [ | apply lookup_at_end | apply lookup_insert_eq ].
    done.
  - by apply lookup_ge_None.
  - apply lookup_at_end.
Qed.

(** C5, as stated, fails: on a new manager the read of the unset name [foo]
    creates nothing. *)
Lemma vivifies_on_read_fails : ¬ vivifies_on_read fresh_manager 0 "foo".
Proof. intros (e & σ' & d & H & _). discriminate H. Qed.

(** C5, amended.  Reading a name that has no item raises [KeyError] and
    leaves the store as it was, by key ([m[s]]), through [__getattr__], and
    by attribute ([m.s]) when the class has no attribute of that name. *)
Theorem read_of_unset_name_raises
  (σ : store) (m : nat) (d : gmap string entry) (s : string) :
  managers σ !! m = Some d →
  d !! s = None →
  dict_getitem σ m s = Raise KeyError ∧
  EventManager_getattr m s σ = (Raise KeyError, σ) ∧
  (class_attr s = false → getattr σ m s = Raise KeyError).
Proof.
  intros Hm Hs.
  assert (dict_getitem σ m s = Raise KeyError) as Hget.
  { unfold dict_getitem, read_manager. by rewrite Hm, Hs. }
  split_and!; [done | |].
  - unfold EventManager_getattr, lift. by rewrite Hget.
  - intros Hc. unfold getattr. rewrite Hc. unfold EventManager_getattr, lift.
    simpl. by rewrite Hget.
Qed.

(** The attribute read of a name the class has never reaches
    [__getattr__], whatever the items: [m.keys] and [m.__len__] are the
    methods of [dict]. *)
Lemma getattr_class_attribute σ m s :
  class_attr s = true → getattr σ m s = Ret (ClassAttr s).
Proof. intros Hs. unfold getattr. by rewrite Hs. Qed.

Lemma read_of_unset_name_raises_witness :
  dict_getitem fresh_manager 0 "foo" = Raise KeyError ∧
  EventManager_getattr 0 "foo" fresh_manager = (Raise KeyError, fresh_manager) ∧
  (class_attr "foo" = false → getattr fresh_manager 0 "foo" = Raise KeyError).
Proof.
  apply (read_of_unset_name_raises fresh_manager 0 {["got_event" := EEvent 0]} "foo");
    reflexivity.
Defined.

(** ** Firing through a manager *)

Section ManagerDispatch.

Context {U : Type}.
Variable beh : nat → call_args → U → option exn * U.

Lemma truthy_manager σ m d k en :
  managers σ !! m = Some d →
  d !! k = Some en →
  truthy σ (Some m) = Ret true.
Proof.
  intros Hm Hk. unfold truthy, read_manager. rewrite Hm.
  assert (size d ≠ 0) as Hsz by (by eapply map_size_ne_0_lookup_2).
  by destruct (size d).
Qed.

(** Firing an event that has no manager is the loop over its handlers and
    nothing else, whatever the recursion limit left. *)
Lemma fire_unowned fuel σ g gv a w :
  events σ !! g = Some gv →
  eventmanager gv = None →
  fire beh (S fuel) σ g a w
  = dispatch beh (handlers gv) a (mkWorld (user w) (log w ++ [Fired g a])).
Proof.
  intros Hg Ho. rewrite (fire_unfold _ _ _ _ _ _ _ Hg).
  by rewrite (notify_unowned _ _ _ _ _ _ Ho).
Qed.

(** The notification of a manager whose global event has no manager. *)
Lemma notify_global fuel σ ev m d g gv a w :
  eventmanager ev = Some m →
  managers σ !! m = Some d →
  d !! "got_event" = Some (EEvent g) →
  events σ !! g = Some gv →
  eventmanager gv = None →
  notify beh (fire beh (S fuel) σ) σ ev a w
  = dispatch beh (handlers gv) (prepend (name ev) a)
      (mkWorld (user w) (log w ++ [Fired g (prepend (name ev) a)])).
Proof.
  intros Ho Hm Hd Hg Hgo. unfold notify.
  rewrite Ho, (truthy_manager _ _ _ _ _ Hm Hd).
  rewrite (getattr_got_event _ _ _ _ Hm Hd).
  by apply fire_unowned.
Qed.

End ManagerDispatch.

Lemma global_event_inv σ m g :
  global_event σ m = Some g →
  ∃ d, managers σ !! m = Some d ∧ d !! "got_event" = Some (EEvent g).
Proof.
  intros H. unfold global_event, getattr in H.
  rewrite class_attr_got_event in H. simpl in H.
  unfold dict_getitem, read_manager in H.
  destruct (managers σ !! m) as [d|] eqn:Hm; [|done].
  destruct (d !! "got_event") as [[g'|v]|] eqn:Hd; simplify_eq/=.
  by exists d.
Qed.


Lemma fired_count_app (l l' : list obs) :
  fired_count (l ++ l') = fired_count l + fired_count l'.
Proof. unfold fired_count. by rewrite List.filter_app, length_app. Qed.

Lemma fired_count_calls hs a : fired_count (calls hs a) = 0.
Proof. induction hs as [|h hs IH]; [done|]. apply IH. Qed.

(** C8, as stated, fails on a manager whose attribute [got_event] was
    assigned an event: the assignment stamps the event, which is then its
    own global event, and firing it fires it again. *)
Lemma global_event_never_refires_fails :
  ¬ global_event_never_refires quiet reassigned_store 0.
Proof.
  intros H. specialize (H 1 1 args12 start eq_refl).
  vm_compute in H. discriminate H.
Qed.

Section GlobalEvent.

Context {U : Type}.
Variable beh : nat → call_args → U → option exn * U.

(** C8, amended.  Firing the global event of a manager, when that event has
    no manager of its own (the constructor sets it up so), is the loop over
    its handlers, however many there are: it needs no nested call of
    [fire], with any recursion limit left, and the log gains a single
    [fire], the call itself, followed by invocations of its handlers. *)
Theorem global_event_fires_once
  (fuel : nat) (σ : store) (m g : nat) (gv : Event) (a : call_args)
  (w : world U) :
  global_event σ m = Some g →
  events σ !! g = Some gv →
  eventmanager gv = None →
  fire beh (S fuel) σ g a w
    = dispatch beh (handlers gv) a (mkWorld (user w) (log w ++ [Fired g a])) ∧
  (∃ k, log (fire beh (S fuel) σ g a w).2
        = log w ++ Fired g a :: calls (take k (handlers gv)) a) ∧
  fired_count (log (fire beh (S fuel) σ g a w).2) = S (fired_count (log w)).
Proof.
  intros _ Hg Ho.
  pose proof (fire_unowned beh fuel σ g gv a w Hg Ho) as Hfire.
  destruct (dispatch_log beh (handlers gv) a
              (mkWorld (user w) (log w ++ [Fired g a]))) as [k Hk].
  simpl in Hk. rewrite <- app_assoc in Hk. simpl in Hk.
  split_and!; [done | | ].
  - exists k. by rewrite Hfire.
  - rewrite Hfire, Hk, fired_count_app.
    change (fired_count (Fired g a :: calls (take k (handlers gv)) a))
      with (S (fired_count (calls (take k (handlers gv)) a))).
    rewrite fired_count_calls. lia.
Qed.


End GlobalEvent.

(** ** EventManager.apply, member by member *)

Lemma apply_skips_non_callable m s v rest σ :
  callable v = false →
  EventManager_apply m ((s, v) :: rest) σ = EventManager_apply m rest σ.
Proof. intros Hv. simpl. by rewrite Hv. Qed.

Lemma apply_skips_private m s v rest σ :
  String.prefix "_" s = true →
  EventManager_apply m ((s, v) :: rest) σ = EventManager_apply m rest σ.
Proof. intros Hs. simpl. rewrite Hs. by destruct (callable v). Qed.

Lemma hasattr_absent σ m d s :
  managers σ !! m = Some d →
  d !! s = None →
  hasattr σ m s = class_attr s.
Proof.
  intros Hm Hs. unfold hasattr, getattr.
  destruct (class_attr s); [done|].
  unfold EventManager_getattr, lift, dict_getitem, read_manager. simpl.
  by rewrite Hm, Hs.
Qed.

Lemma hasattr_present σ m d s en :
  managers σ !! m = Some d →
  d !! s = Some en →
  hasattr σ m s = true.
Proof.
  intros Hm Hs. unfold hasattr, getattr.
  destruct (class_attr s); [done|].
  unfold EventManager_getattr, lift, dict_getitem, read_manager. simpl.
  by rewrite Hm, Hs.
Qed.

Lemma dict_getitem_present σ m d s en :
  managers σ !! m = Some d →
  d !! s = Some en →
  dict_getitem σ m s = Ret en.
Proof. intros Hm Hs. unfold dict_getitem, read_manager. by rewrite Hm, Hs. Qed.

(** A public method whose name has no item and is not an attribute of the
    class: a new event is created under the name, stamped, and given the
    method as its only handler. *)
Lemma apply_creates σ m d s f rest :
  managers σ !! m = Some d →
  d !! s = None →
  class_attr s = false →
  String.prefix "_" s = false →
  EventManager_apply m ((s, VFun f) :: rest) σ
  = EventManager_apply m rest
      (mkStore (events σ ++ [mkEvent [VFun f] (VStr s) (Some m)])
               (<[m := <[s := EEvent (length (events σ))]> d]> (managers σ))).
Proof.
  intros Hm Hs Hc Hp. simpl. rewrite Hp.
  erewrite bind_ret; last first.
  { unfold lift. by rewrite (hasattr_absent _ _ _ _ Hm Hs), Hc. }
  simpl. erewrite bind_ret; last first.
  { erewrite bind_ret; last done.
    eapply EventManager_setitem_event; simpl; [apply lookup_at_end | done]. }
  simpl. rewrite insert_at_end.
  erewrite bind_ret; last first.
  { unfold lift. erewrite dict_getitem_present; [done | |apply lookup_insert_eq].
    simpl. apply list_lookup_insert_eq. by eapply lookup_lt_Some. }
  erewrite bind_ret; last first.
  { simpl. eapply add_handler_callable. simpl. apply lookup_at_end. }
  simpl. by rewrite insert_at_end.
Qed.

(** A public method whose name has an item that is an event: the method is
    appended to the handlers of that event. *)
Lemma apply_appends σ m d s e ev f rest :
  managers σ !! m = Some d →
  d !! s = Some (EEvent e) →
  events σ !! e = Some ev →
  String.prefix "_" s = false →
  EventManager_apply m ((s, VFun f) :: rest) σ
  = EventManager_apply m rest
      (mkStore (<[e := mkEvent (handlers ev ++ [VFun f]) (name ev)
                               (eventmanager ev)]> (events σ))
               (managers σ)).
Proof.
  intros Hm Hs He Hp. simpl. rewrite Hp.
  erewrite bind_ret; last first.
  { unfold lift. by rewrite (hasattr_present _ _ _ _ _ Hm Hs). }
  simpl. erewrite bind_ret; last done.
  erewrite bind_ret; last first.
  { unfold lift. by erewrite dict_getitem_present. }
  erewrite bind_ret; last first.
  { simpl. by eapply add_handler_callable. }
  done.
Qed.

(** A public method whose name is an attribute of the class and has no
    item: [hasattr] finds the class attribute, no event is created, and
    the item read raises. *)
Lemma apply_class_attr_name σ m d s f rest :
  managers σ !! m = Some d →
  d !! s = None →
  class_attr s = true →
  String.prefix "_" s = false →
  EventManager_apply m ((s, VFun f) :: rest) σ = (Raise KeyError, σ).
Proof.
  intros Hm Hs Hc Hp. simpl. rewrite Hp.
  erewrite bind_ret; last first.
  { unfold lift. by rewrite (hasattr_absent _ _ _ _ Hm Hs), Hc. }
  simpl. erewrite bind_ret; last done.
  erewrite bind_raise; [done|].
  unfold lift, dict_getitem, read_manager. by rewrite Hm, Hs.
Qed.

(** X18.  An object with two public methods whose names are new to the
    manager and are not attributes of the class: the first [apply] creates
    the two events, each with its method as only handler; the second [apply]
    appends each method again. *)
Lemma apply_twice_accumulates σ m d sa sb fa fb :
  managers σ !! m = Some d →
  sa ≠ sb →
  d !! sa = None → class_attr sa = false → String.prefix "_" sa = false →
  d !! sb = None → class_attr sb = false → String.prefix "_" sb = false →
  ∃ ea eb σ1 σ2,
    EventManager_apply m [(sa, VFun fa); (sb, VFun fb)] σ = (Ret (), σ1) ∧
    EventManager_apply m [(sa, VFun fa); (sb, VFun fb)] σ1 = (Ret (), σ2) ∧
    managers σ1 !! m = Some (<[sb := EEvent eb]> (<[sa := EEvent ea]> d)) ∧
    managers σ2 !! m = Some (<[sb := EEvent eb]> (<[sa := EEvent ea]> d)) ∧
    events σ1 !! ea = Some (mkEvent [VFun fa] (VStr sa) (Some m)) ∧
    events σ1 !! eb = Some (mkEvent [VFun fb] (VStr sb) (Some m)) ∧
    events σ2 !! ea = Some (mkEvent [VFun fa; VFun fa] (VStr sa) (Some m)) ∧
    events σ2 !! eb = Some (mkEvent [VFun fb; VFun fb] (VStr sb) (Some m)).
Proof.
  intros Hm Hne Ha Hca Hpa Hb Hcb Hpb.
  assert (m < length (managers σ)) as Hlt by (by eapply lookup_lt_Some).
  set (n := length (events σ)).
  set (Ea := mkEvent [VFun fa] (VStr sa) (Some m)).
  set (Eb := mkEvent [VFun fb] (VStr sb) (Some m)).
  set (d2 := <[sb := EEvent (S n)]> (<[sa := EEvent n]> d)).
  set (σ1 := mkStore ((events σ ++ [Ea]) ++ [Eb]) (<[m := d2]> (managers σ))).
  assert (EventManager_apply m [(sa, VFun fa); (sb, VFun fb)] σ = (Ret (), σ1))
    as H1.
  { rewrite (apply_creates σ m d sa fa _ Hm Ha Hca Hpa).
    erewrite apply_creates; [ | simpl; by apply list_lookup_insert_eq
                              | by rewrite lookup_insert_ne | done | done ].
    simpl. rewrite list_insert_insert_eq, length_app. simpl.
    by replace (length (events σ) + 1) with (S n) by (unfold n; lia). }
  assert (managers σ1 !! m = Some d2) as Hm1
    by (simpl; by apply list_lookup_insert_eq).
  assert (d2 !! sa = Some (EEvent n)) as Hda.
  { unfold d2. rewrite lookup_insert_ne by done. apply lookup_insert_eq. }
  assert (d2 !! sb = Some (EEvent (S n))) as Hdb by apply lookup_insert_eq.
  assert (events σ1 !! n = Some Ea) as Hea.
  { simpl. rewrite lookup_app_l by (rewrite length_app; simpl; lia).
    apply lookup_at_end. }
  assert (events σ1 !! S n = Some Eb) as Heb.
  { simpl. replace (S n) with (length (events σ ++ [Ea]))
      by (rewrite length_app; simpl; unfold n; lia).
    apply lookup_at_end. }
  eexists n, (S n), σ1, _. split_and!; [done | | done | | done | done | | ].
  - rewrite (apply_appends σ1 m d2 sa n Ea fa _ Hm1 Hda Hea Hpa).
    erewrite apply_appends; [ | exact Hm1 | exact Hdb | | done ]; [done|].
    simpl. rewrite list_lookup_insert_ne by lia. exact Heb.
  - simpl. by apply list_lookup_insert_eq.
  - simpl. rewrite list_lookup_insert_ne by lia.
    apply list_lookup_insert_eq. by eapply lookup_lt_Some.
  - simpl. apply list_lookup_insert_eq. rewrite length_insert.
    by eapply lookup_lt_Some.
Qed.

(** C9 on the code: for an object with a public method named [keys], like
    the method of [dict], [apply] raises [KeyError] on a new manager.  The
    method [a], which [dir] lists before, was registered; no event [keys]
    exists, and the method [z], listed after, was never reached. *)
Theorem apply_raises_on_dict_method_name :
  (EventManager_apply 0 keys_object fresh_manager).1 = Raise KeyError ∧
  managers (EventManager_apply 0 keys_object fresh_manager).2 !! 0
    = Some (<["a" := EEvent 1]> {["got_event" := EEvent 0]}) ∧
  events (EventManager_apply 0 keys_object fresh_manager).2 !! 1
    = Some (mkEvent [VFun 1] (VStr "a") (Some 0)).
Proof. split_and!; reflexivity. Qed.

(** ** The global event stays as the constructor left it

    The rules of the triples first, then each method against the invariant
    [global_unowned]. *)

Lemma triple_ret {A} (P : store → Prop) (a : A) (Q : A → store → Prop) E :
  (∀ σ, P σ → Q a σ) → triple P (mret a) Q E.
Proof. intros H σ HP. by apply H. Qed.

Lemma triple_raise {A} (P : store → Prop) x (Q : A → store → Prop)
  (E : store → Prop) :
  (∀ σ, P σ → E σ) → triple P (raise x) Q E.
Proof. intros H σ HP. by apply H. Qed.

Lemma triple_bind {A B} (P : store → Prop) (c : M A) (k : A → M B)
  (Q : A → store → Prop) (R : B → store → Prop) E :
  triple P c Q E →
  (∀ a, triple (Q a) (k a) R E) →
  triple P (c ≫= k) R E.
Proof.
  intros Hc Hk σ HP. specialize (Hc σ HP).
  unfold mbind, M_bind. destruct (c σ) as [[a|x] σ']; [|done].
  by apply Hk.
Qed.

Lemma triple_lift {A} (P : store → Prop) (r : store → res A)
  (E : store → Prop) :
  (∀ σ, P σ → E σ) →
  triple P (lift r) (λ a σ, P σ ∧ r σ = Ret a) E.
Proof.
  intros H σ HP. unfold lift. destruct (r σ) as [a|x] eqn:Hr; [done|].
  by apply H.
Qed.

Lemma triple_post {A} (P : store → Prop) (c : M A)
  (Q Q' : A → store → Prop) E :
  triple P c Q E → (∀ a σ, Q a σ → Q' a σ) → triple P c Q' E.
Proof.
  intros Hc HQ σ HP. specialize (Hc σ HP).
  destruct (c σ) as [[a|x] σ']; [by apply HQ | done].
Qed.

Lemma triple_pre {A} (P P' : store → Prop) (c : M A)
  (Q : A → store → Prop) E :
  triple P c Q E → (∀ σ, P' σ → P σ) → triple P' c Q E.
Proof. intros Hc HP σ HP'. apply Hc. by apply HP. Qed.

Lemma triple_pure {A} (P : store → Prop) (φ : Prop) (c : M A)
  (Q : A → store → Prop) E :
  (φ → triple P c Q E) →
  triple (λ σ, P σ ∧ φ) c (λ a σ, Q a σ ∧ φ) E.
Proof.
  intros Hc σ [HP Hφ]. specialize (Hc Hφ σ HP).
  by destruct (c σ) as [[a|x] σ'].
Qed.

Lemma global_event_intro σ m d g :
  managers σ !! m = Some d →
  d !! "got_event" = Some (EEvent g) →
  global_event σ m = Some g.
Proof.
  intros Hm Hd. unfold global_event.
  by rewrite (getattr_got_event _ _ _ _ Hm Hd).
Qed.

Section Invariant.

Variables m g : nat.

Lemma write_event_keeps e ev σ :
  global_unowned m g σ →
  (e = g → eventmanager ev = None) →
  global_unowned m g (write_event e ev σ).2.
Proof.
  intros [Hglob (gv & Hg & Ho)] He. split; [exact Hglob|]. simpl.
  destruct (decide (e = g)) as [->|Hne].
  - exists ev. split; [|by apply He].
    apply list_lookup_insert_eq. by eapply lookup_lt_Some.
  - exists gv. by rewrite list_lookup_insert_ne.
Qed.

Lemma write_manager_keeps m' d' σ :
  global_unowned m g σ →
  (m' = m → d' !! "got_event" = Some (EEvent g)) →
  global_unowned m g (write_manager m' d' σ).2.
Proof.
  intros [Hglob Hg] Hd. split; [|exact Hg].
  destruct (global_event_inv _ _ _ Hglob) as (d & Hm & Hdg).
  destruct (decide (m' = m)) as [->|Hne].
  - eapply global_event_intro; [|by apply Hd]. simpl.
    apply list_lookup_insert_eq. by eapply lookup_lt_Some.
  - eapply global_event_intro; [|exact Hdg]. simpl.
    by rewrite list_lookup_insert_ne.
Qed.

Lemma read_event_owner σ e ev :
  global_unowned m g σ → read_event σ e = Ret ev → e = g →
  eventmanager ev = None.
Proof.
  intros [_ (gv & Hg & Ho)] Hr ->. unfold read_event in Hr.
  rewrite Hg in Hr. by simplify_eq.
Qed.

Lemma set_handlers_keeps e hs :
  preserves_global m g (set_handlers e hs).
Proof.
  unfold set_handlers. eapply triple_bind; [by apply triple_lift|].
  intros ev σ [HI Hr]. apply write_event_keeps; [done|].
  intros He. simpl. by eapply read_event_owner.
Qed.

Lemma set_name_keeps e v : preserves_global m g (set_name e v).
Proof.
  unfold set_name. eapply triple_bind; [by apply triple_lift|].
  intros ev σ [HI Hr]. apply write_event_keeps; [done|].
  intros He. simpl. by eapply read_event_owner.
Qed.

Lemma set_eventmanager_keeps e o :
  (e = g → o = None) →
  preserves_global m g (set_eventmanager e o).
Proof.
  intros Ho. unfold set_eventmanager.
  eapply triple_bind; [by apply triple_lift|].
  intros ev σ [HI Hr]. by apply write_event_keeps.
Qed.

Lemma Event_init_keeps args :
  triple (global_unowned m g) (Event_init args)
         (λ e σ, global_unowned m g σ ∧ e ≠ g) (global_unowned m g).
Proof.
  intros σ [Hglob (gv & Hg & Ho)]. simpl.
  pose proof (lookup_lt_Some _ _ _ Hg) as Hlt.
  split; [|lia]. split; [exact Hglob|].
  exists gv. split; [|done]. simpl. by apply lookup_app_l_Some.
Qed.

Lemma Event_clear_keeps e : preserves_global m g (Event_clear e).
Proof. apply set_handlers_keeps. Qed.

Lemma add_handler_keeps e h : preserves_global m g (add_handler e h).
Proof.
  unfold add_handler. destruct (negb (callable h)); [by apply triple_raise|].
  unfold list_append. eapply triple_bind; [by apply triple_lift|].
  intros ev. eapply triple_pre; [apply set_handlers_keeps|]. by intros σ [? _].
Qed.

Lemma remove_handler_keeps e h :
  preserves_global m g (remove_handler e h).
Proof.
  unfold remove_handler, list_remove.
  eapply triple_bind; [by apply triple_lift|].
  intros ev. destruct (remove_first h (handlers ev)).
  - eapply triple_pre; [apply set_handlers_keeps|]. by intros σ [? _].
  - apply triple_raise. by intros σ [? _].
Qed.

Lemma dict_setitem_keeps m' key en :
  (m' = m → key ≠ "got_event") →
  preserves_global m g (dict_setitem m' key en).
Proof.
  intros Hk. unfold dict_setitem.
  eapply triple_bind; [by apply triple_lift|].
  intros d σ [HI Hr]. apply write_manager_keeps; [done|].
  intros ->. rewrite lookup_insert_ne by (by apply Hk).
  destruct HI as [Hglob _].
  destruct (global_event_inv _ _ _ Hglob) as (d' & Hm & Hd').
  unfold read_manager in Hr. rewrite Hm in Hr. by simplify_eq.
Qed.

Lemma EventManager_setitem_keeps m' key en :
  en ≠ EEvent g →
  (m' = m → key ≠ "got_event") →
  preserves_global m g (EventManager_setitem m' key en).
Proof.
  intros Hen Hk. unfold EventManager_setitem.
  eapply triple_bind; [|intros ?; by apply dict_setitem_keeps].
  destruct en as [e|v]; [|by apply triple_ret].
  eapply triple_bind; [apply set_name_keeps|].
  intros ?. apply set_eventmanager_keeps. intros He. by rewrite He in Hen.
Qed.

Lemma dict_init_keeps init :
  triple (global_unowned m g) (dict_init init)
         (λ m' σ, global_unowned m g σ ∧ m' ≠ m) (global_unowned m g).
Proof.
  intros σ [Hglob Hg]. simpl.
  destruct (global_event_inv _ _ _ Hglob) as (d & Hm & Hd).
  pose proof (lookup_lt_Some _ _ _ Hm) as Hlt.
  split; [|lia]. split; [|exact Hg].
  eapply global_event_intro; [|exact Hd]. simpl. by apply lookup_app_l_Some.
Qed.

Lemma assign_name_keeps t v : preserves_global m g (assign_name t v).
Proof.
  destruct t as [s|[e|v']]; try (by apply triple_raise). apply set_name_keeps.
Qed.

Lemma assign_eventmanager_None_keeps t :
  preserves_global m g (assign_eventmanager t None).
Proof.
  destruct t as [s|[e|v']]; try (by apply triple_raise).
  by apply set_eventmanager_keeps.
Qed.

Lemma EventManager_init_keeps init :
  preserves_global m g (EventManager_init init).
Proof.
  unfold EventManager_init.
  eapply triple_bind; [apply dict_init_keeps|]. intros m'.
  eapply triple_bind; [apply triple_pure; intros _; apply Event_init_keeps|].
  intros g'. eapply triple_bind with (Q := λ _, global_unowned m g).
  { intros σ [[HI Hg'] Hm']. unfold EventManager_setattr.
    apply EventManager_setitem_keeps; [congruence | done | done]. }
  intros ?. eapply triple_bind; [by apply triple_lift|]. intros t.
  eapply triple_bind.
  { eapply triple_pre; [apply assign_name_keeps|]. by intros σ [? _]. }
  intros ?. eapply triple_bind; [by apply triple_lift|]. intros t'.
  eapply triple_bind.
  { eapply triple_pre; [apply assign_eventmanager_None_keeps|].
    by intros σ [? _]. }
  intros ?. by apply triple_ret.
Qed.

Lemma hasattr_got_event σ :
  global_unowned m g σ → hasattr σ m "got_event" = true.
Proof.
  intros [Hglob _]. destruct (global_event_inv _ _ _ Hglob) as (d & Hm & Hd).
  by eapply hasattr_present.
Qed.

Lemma invoke_add_handler_keeps t h :
  preserves_global m g (invoke_add_handler t h).
Proof.
  destruct t as [e|v]; [apply add_handler_keeps | by apply triple_raise].
Qed.

Lemma create_event_keeps m' key :
  (m' = m → key ≠ "got_event") →
  preserves_global m g
    (ev ← Event_init []; EventManager_setitem m' key (EEvent ev)).
Proof.
  intros Hk. eapply triple_bind; [apply Event_init_keeps|].
  intros e σ [HI He]. apply EventManager_setitem_keeps; [congruence|done..].
Qed.

Lemma EventManager_apply_keeps m' members :
  preserves_global m g (EventManager_apply m' members).
Proof.
  induction members as [|[method v] rest IH]; [by apply triple_ret|].
  simpl. destruct (negb (callable v)); [exact IH|].
  destruct (String.prefix "_" method); [exact IH|].
  eapply triple_bind; [by apply triple_lift|]. intros has.
  eapply triple_bind with (Q := λ _, global_unowned m g).
  - destruct has; simpl.
    + apply triple_ret. by intros σ [? _].
    + intros σ [HI Hhas]. apply create_event_keeps; [|done].
      intros -> ->. rewrite (hasattr_got_event σ HI) in Hhas. discriminate.
  - intros ?. eapply triple_bind; [by apply triple_lift|]. intros t.
    eapply triple_bind.
    { eapply triple_pre; [apply invoke_add_handler_keeps|]. by intros σ [? _]. }
    intros ?. exact IH.
Qed.

Lemma exec_keeps c : keeps m g c → preserves_global m g (exec c).
Proof.
  destruct c as [args|e|e h|e h|init|m' key en|m' members]; simpl; intros Hc.
  - eapply triple_bind; [apply Event_init_keeps|].
    intros ?. apply triple_ret. by intros σ [? _].
  - apply Event_clear_keeps.
  - apply add_handler_keeps.
  - apply remove_handler_keeps.
  - eapply triple_bind; [apply EventManager_init_keeps|].
    intros ?. by apply triple_ret.
  - destruct Hc. by apply EventManager_setitem_keeps.
  - apply EventManager_apply_keeps.
Qed.

(** Whatever the client calls, short of assigning the global event or the
    item [got_event] again, and whether the calls return or raise, the
    global event of the manager is the same event afterwards and still has
    no manager. *)
Lemma run_keeps cs σ :
  Forall (keeps m g) cs → global_unowned m g σ → global_unowned m g (run cs σ).
Proof.
  unfold run. intros Hcs. revert σ.
  induction Hcs as [|c cs Hc _ IH]; intros σ HI; [done|].
  simpl. apply IH. pose proof (exec_keeps c Hc σ HI) as H.
  by destruct (exec c σ) as [[[]|x] σ'].
Qed.

End Invariant.

(** The constructor establishes the invariant. *)
Lemma EventManager_init_global_unowned σ init :
  ∃ m g σ', EventManager_init init σ = (Ret m, σ') ∧ global_unowned m g σ'.
Proof.
  destruct (EventManager_init_global σ init) as (m & g & σ' & Hi & Hg & He).
  exists m, g, σ'. split; [done|]. split; [done|]. by eexists.
Qed.

(** X20.  From the construction of a manager on, through any calls that
    leave its global event alone (whether they return or raise), the global
    event of the manager is the event the constructor made, it has no
    manager, and firing it is the loop over the handlers it has by then. *)
Theorem constructed_global_event_fires_flat {U}
  (beh : nat → call_args → U → option exn * U) σ init :
  ∃ m g σ',
    EventManager_init init σ = (Ret m, σ') ∧
    ∀ cs, Forall (keeps m g) cs →
      global_event (run cs σ') m = Some g ∧
      ∃ gv, events (run cs σ') !! g = Some gv ∧
        eventmanager gv = None ∧
        ∀ fuel a w,
          fire beh (S fuel) (run cs σ') g a w
          = dispatch beh (handlers gv) a
              (mkWorld (user w) (log w ++ [Fired g a])).
Proof.
  destruct (EventManager_init_global_unowned σ init) as (m & g & σ' & Hi & HI).
  exists m, g, σ'. split; [done|]. intros cs Hcs.
  destruct (run_keeps m g cs σ' Hcs HI) as [Hglob (gv & Hg & Ho)].
  split; [done|]. exists gv. split_and!; [done..|].
  intros fuel a w. by apply fire_unowned.
Qed.

(** ** The statements on a concrete manager *)




Lemma global_event_fires_once_witness :
  fire quiet 8 (run busy_client fresh_manager) 0 args12 start
    = (Ret (), mkWorld () (Fired 0 args12
                           :: calls [VFun 8; VFun 9; VFun 3] args12)) ∧
  fired_count (log (fire quiet 8 (run busy_client fresh_manager) 0 args12
                      start).2) = 1.
Proof.
  destruct (global_event_fires_once quiet 7 (run busy_client fresh_manager)
              0 0 busy_global args12 start eq_refl eq_refl eq_refl)
    as (Hfire & _ & Hcount).
  split; [|exact Hcount]. rewrite Hfire. reflexivity.
Defined.


(** * Further properties of the module *)

(** ** Exceptions in the dispatch loop *)

Section DispatchFailures.

Context {U : Type}.
Variable beh : nat → call_args → U → option exn * U.

Lemma dispatch_raised pre h post a w x :
  Forall (returns beh a) pre →
  raises beh x a h →
  x ≠ StopIteration →
  ∃ u, dispatch beh (pre ++ h :: post) a w
       = (Raise x, mkWorld u (log w ++ calls (pre ++ [h]) a)).
Proof.
  intros Hpre Hh Hx. revert w. induction Hpre as [|p pre Hp _ IH]; intros w.
  - simpl. destruct (call_value_raises beh x a h w Hh) as [u ->].
    exists u. by destruct x.
  - simpl. destruct (call_value_returns beh a p w Hp) as [u ->].
    destruct (IH (mkWorld u (log w ++ [Called p a]))) as [u' ->].
    exists u'. simpl. by rewrite <- app_assoc.
Qed.




(** X3.  The test [if self.eventmanager] is the truth value of a [dict]: an
    event whose manager has no item left notifies nobody, and [fire] is the
    loop over its own handlers. *)
Theorem fire_skips_empty_manager
  (fuel : nat) (σ : store) (e m : nat) (ev : Event) (a : call_args)
  (w : world U) :
  events σ !! e = Some ev →
  eventmanager ev = Some m →
  managers σ !! m = Some ∅ →
  fire beh (S fuel) σ e a w
  = dispatch beh (handlers ev) a (mkWorld (user w) (log w ++ [Fired e a])).
Proof.
  intros He Ho Hm. rewrite (fire_unfold _ _ _ _ _ _ _ He).
  unfold notify, truthy, read_manager. rewrite Ho, Hm.
  by rewrite map_size_empty.
Qed.

(** X4.  When the manager of an event has items but none under [got_event],
    [fire] raises [KeyError] before any handler of the event is invoked. *)
Theorem fire_without_global_event
  (fuel : nat) (σ : store) (e m : nat) (ev : Event) (d : gmap string entry)
  (a : call_args) (w : world U) :
  events σ !! e = Some ev →
  eventmanager ev = Some m →
  managers σ !! m = Some d →
  d ≠ ∅ →
  d !! "got_event" = None →
  fire beh (S fuel) σ e a w
  = (Raise KeyError, mkWorld (user w) (log w ++ [Fired e a])).
Proof.
  intros He Ho Hm Hne Hd. rewrite (fire_unfold _ _ _ _ _ _ _ He).
  unfold notify, truthy, read_manager. rewrite Ho, Hm.
  apply map_size_non_empty_iff in Hne.
  destruct (size d) as [|n] eqn:Hsz; [done|]. simpl.
  unfold getattr. rewrite class_attr_got_event. simpl.
  unfold dict_getitem, read_manager. by rewrite Hm, Hd.
Qed.


(** X6.  Any other exception raised by a handler of the global event leaves
    [fire] of the member event: none of the event's own handlers is
    invoked. *)
Theorem global_exception_aborts_event
  (fuel : nat) (σ : store) (m e g : nat) (ev gv : Event)
  (gpre gpost : list value) (gh : value) (x : exn) (a : call_args)
  (w : world U) :
  events σ !! e = Some ev →
  eventmanager ev = Some m →
  global_event σ m = Some g →
  events σ !! g = Some gv →
  eventmanager gv = None →
  handlers gv = gpre ++ gh :: gpost →
  Forall (returns beh (prepend (name ev) a)) gpre →
  raises beh x (prepend (name ev) a) gh →
  x ≠ StopIteration →
  ∃ u, fire beh (S (S fuel)) σ e a w
       = (Raise x,
          mkWorld u (log w ++ [Fired e a; Fired g (prepend (name ev) a)]
                       ++ calls (gpre ++ [gh]) (prepend (name ev) a))).
Proof.
  intros He Ho Hglob Hg Hgo Hgv Hgpre Hgh Hx.
  destruct (global_event_inv _ _ _ Hglob) as (d & Hm & Hd).
  rewrite (fire_unfold _ _ _ _ _ _ _ He).
  rewrite (notify_global beh fuel σ ev m d g gv a _ Ho Hm Hd Hg Hgo), Hgv.
  destruct (dispatch_raised gpre gh gpost (prepend (name ev) a)
              (mkWorld (user (mkWorld (user w) (log w ++ [Fired e a])))
                 (log (mkWorld (user w) (log w ++ [Fired e a]))
                  ++ [Fired g (prepend (name ev) a)])) x Hgpre Hgh Hx) as [u ->].
  exists u. simpl. by rewrite <- !app_assoc.
Qed.

End DispatchFailures.

(** ** Registration and removal together *)

Lemma remove_first_snoc_fresh (x : value) (l : list value) :
  x ∉ l → remove_first x (l ++ [x]) = Some l.
Proof.
  induction l as [|y l IH]; intros Hx; simpl.
  - by rewrite decide_True.
  - apply not_elem_of_cons in Hx as [Hne Hx].
    rewrite decide_False by congruence. by rewrite (IH Hx).
Qed.

Lemma remove_first_app_here (x : value) (l1 l2 : list value) :
  x ∉ l1 → remove_first x (l1 ++ x :: l2) = Some (l1 ++ l2).
Proof.
  induction l1 as [|y l1 IH]; intros Hx; simpl.
  - by rewrite decide_True.
  - apply not_elem_of_cons in Hx as [Hne Hx].
    rewrite decide_False by congruence. by rewrite (IH Hx).
Qed.

Lemma store_insert_same σ e ev :
  events σ !! e = Some ev →
  mkStore (<[e := ev]> (events σ)) (managers σ) = σ.
Proof. intros H. rewrite list_insert_id by done. by destruct σ. Qed.

(** X7.  [add_handler] followed by [remove_handler] of the same callable
    gives back the store it started from, when the callable was not a
    handler of the event before. *)
Theorem add_then_remove_restores
  (σ : store) (e : nat) (ev : Event) (f : nat) :
  events σ !! e = Some ev →
  VFun f ∉ handlers ev →
  (add_handler e (VFun f) ;; remove_handler e (VFun f)) σ = (Ret (), σ).
Proof.
  intros He Hf.
  erewrite bind_ret; last by apply add_handler_callable.
  unfold remove_handler, list_remove.
  erewrite bind_ret; last first.
  { apply lift_read_event. simpl. apply list_lookup_insert_eq.
    by eapply lookup_lt_Some. }
  simpl. rewrite (remove_first_snoc_fresh _ _ Hf).
  erewrite set_handlers_eq; last first.
  { simpl. apply list_lookup_insert_eq. by eapply lookup_lt_Some. }
  simpl. rewrite list_insert_insert_eq.
  f_equal. destruct ev as [hs n o]. simpl. by apply store_insert_same.
Qed.

(** X8.  When the callable is already a handler, [add_handler] followed by
    [remove_handler] does not restore the list: the removal takes the first
    occurrence, so the handler ends up last. *)
Theorem add_then_remove_moves_last
  (σ : store) (e : nat) (ev : Event) (f : nat) (l1 l2 : list value) :
  events σ !! e = Some ev →
  handlers ev = l1 ++ VFun f :: l2 →
  VFun f ∉ l1 →
  (add_handler e (VFun f) ;; remove_handler e (VFun f)) σ
  = (Ret (),
     mkStore (<[e := mkEvent (l1 ++ l2 ++ [VFun f]) (name ev)
                             (eventmanager ev)]> (events σ))
             (managers σ)).
Proof.
  intros He Hhs Hf.
  erewrite bind_ret; last by apply add_handler_callable.
  unfold remove_handler, list_remove.
  erewrite bind_ret; last first.
  { apply lift_read_event. simpl. apply list_lookup_insert_eq.
    by eapply lookup_lt_Some. }
  simpl. rewrite Hhs, <- app_assoc. simpl.
  rewrite (remove_first_app_here _ _ _ Hf).
  erewrite set_handlers_eq; last first.
  { simpl. apply list_lookup_insert_eq. by eapply lookup_lt_Some. }
  simpl. by rewrite list_insert_insert_eq.
Qed.

(** ** Items of a manager *)

(** X9.  [m[key] = e] for an event [e]: the item reads back as [e]; [e]
    keeps its handlers and gets the key as name and [m] as manager; no other
    event and no other manager changes. *)
Theorem setitem_stamps_event
  (σ : store) (m e : nat) (d : gmap string entry) (ev : Event)
  (key : string) :
  managers σ !! m = Some d →
  events σ !! e = Some ev →
  ∃ σ',
    EventManager_setitem m key (EEvent e) σ = (Ret (), σ') ∧
    dict_getitem σ' m key = Ret (EEvent e) ∧
    events σ' !! e = Some (mkEvent (handlers ev) (VStr key) (Some m)) ∧
    (∀ e', e' ≠ e → events σ' !! e' = events σ !! e') ∧
    (∀ m', m' ≠ m → managers σ' !! m' = managers σ !! m') ∧
    (∀ k, k ≠ key → dict_getitem σ' m k = dict_getitem σ m k).
Proof.
  intros Hm He. eexists. split; [by eapply EventManager_setitem_event|].
  pose proof (lookup_lt_Some _ _ _ Hm) as Hlm.
  pose proof (lookup_lt_Some _ _ _ He) as Hle.
  split_and!.
  - eapply dict_getitem_present; simpl;
      [by apply list_lookup_insert_eq | apply lookup_insert_eq].
  - simpl. by apply list_lookup_insert_eq.
  - intros e' Hne. simpl. by rewrite list_lookup_insert_ne.
  - intros m' Hne. simpl. by rewrite list_lookup_insert_ne.
  - intros k Hne. unfold dict_getitem, read_manager. simpl.
    rewrite list_lookup_insert_eq by done. rewrite Hm.
    by rewrite lookup_insert_ne.
Qed.

(** X10.  An event that is an item of one manager and is then stored in a
    second one stays an item of the first, but its name and manager are
    those of the last assignment: it belongs to the second manager only. *)
Theorem setitem_restamps_shared_event
  (σ : store) (m1 m2 e : nat) (d1 d2 : gmap string entry) (ev : Event)
  (k1 k2 : string) :
  m1 ≠ m2 →
  managers σ !! m1 = Some d1 →
  d1 !! k1 = Some (EEvent e) →
  managers σ !! m2 = Some d2 →
  events σ !! e = Some ev →
  ∃ σ',
    EventManager_setitem m2 k2 (EEvent e) σ = (Ret (), σ') ∧
    dict_getitem σ' m1 k1 = Ret (EEvent e) ∧
    dict_getitem σ' m2 k2 = Ret (EEvent e) ∧
    events σ' !! e = Some (mkEvent (handlers ev) (VStr k2) (Some m2)).
Proof.
  intros Hne Hm1 Hk1 Hm2 He.
  eexists. split; [by eapply EventManager_setitem_event|].
  pose proof (lookup_lt_Some _ _ _ Hm2) as Hlm.
  pose proof (lookup_lt_Some _ _ _ He) as Hle.
  split_and!.
  - eapply dict_getitem_present; [|exact Hk1]. simpl.
    by rewrite list_lookup_insert_ne.
  - eapply dict_getitem_present; simpl;
      [by apply list_lookup_insert_eq | apply lookup_insert_eq].
  - simpl. by apply list_lookup_insert_eq.
Qed.

(** X11.  After the attribute assignment [m.s = x] the item [m[s]] is [x].
    The attribute read [m.s] returns it too, unless the class has an
    attribute of that name: then the read finds the class attribute and the
    stored item is reachable by key only. *)
Theorem setattr_then_read
  (σ : store) (m : nat) (d : gmap string entry) (s : string) (en : entry)
  (σ' : store) :
  managers σ !! m = Some d →
  EventManager_setattr m s en σ = (Ret (), σ') →
  dict_getitem σ' m s = Ret en ∧
  getattr σ' m s = if class_attr s then Ret (ClassAttr s) else Ret (Stored en).
Proof.
  intros Hm Hset.
  pose proof (lookup_lt_Some _ _ _ Hm) as Hlm.
  assert (∃ d', managers σ' !! m = Some d' ∧ d' !! s = Some en)
    as (d' & Hm' & Hd').
  { exists (<[s := en]> d). split; [|apply lookup_insert_eq].
    unfold EventManager_setattr in Hset. destruct en as [e|v].
    - destruct (events σ !! e) as [ev|] eqn:He.
      + rewrite (EventManager_setitem_event _ _ _ _ _ _ He Hm) in Hset.
        simplify_eq. simpl. by apply list_lookup_insert_eq.
      + exfalso.
        unfold EventManager_setitem, set_name, mbind, M_bind, lift, read_event
          in Hset.
        by rewrite He in Hset.
    - rewrite (EventManager_setitem_other _ _ _ _ _ Hm) in Hset.
      simplify_eq. simpl. by apply list_lookup_insert_eq. }
  split; [by eapply dict_getitem_present|].
  unfold getattr. destruct (class_attr s); [done|].
  unfold EventManager_getattr, lift. simpl.
  by erewrite dict_getitem_present.
Qed.

(** X12.  The constructor stores its initial items as they are: an item
    other than [got_event] reads back unchanged, and no event that existed
    before, whether among the initial items or not, is stamped or changed;
    nor is any other manager. *)
Theorem EventManager_init_leaves_items
  (σ : store) (init : gmap string entry) :
  ∃ m σ',
    EventManager_init init σ = (Ret m, σ') ∧
    (∀ k en, k ≠ "got_event" → init !! k = Some en →
             dict_getitem σ' m k = Ret en) ∧
    (∀ e ev, events σ !! e = Some ev → events σ' !! e = Some ev) ∧
    (∀ m' d, managers σ !! m' = Some d → managers σ' !! m' = Some d).
Proof.
  eexists _, _. split; [apply EventManager_init_eq|]. split_and!.
  - intros k en Hk Hen. eapply dict_getitem_present; [apply lookup_at_end|].
    by rewrite lookup_insert_ne.
  - intros e ev He. simpl. by apply lookup_app_l_Some.
  - intros m' d Hm'. simpl. by apply lookup_app_l_Some.
Qed.

(** ** Clearing, and firing afterwards *)

Section FiringAfterwards.

Context {U : Type}.
Variable beh : nat → call_args → U → option exn * U.

(** X13.  [clear] empties the handler list and keeps the name and the
    manager of the event: firing the event afterwards still fires the
    global event of its manager, with the name in front of the arguments,
    and invokes nothing else. *)
Theorem clear_then_fire_still_notifies
  (σ : store) (m e g : nat) (ev gv : Event) :
  events σ !! e = Some ev →
  eventmanager ev = Some m →
  global_event σ m = Some g →
  events σ !! g = Some gv →
  eventmanager gv = None →
  ∃ σ',
    Event_clear e σ = (Ret (), σ') ∧
    events σ' !! e = Some (mkEvent [] (name ev) (Some m)) ∧
    ∀ fuel a w,
      fire beh (S (S fuel)) σ' e a w
      = dispatch beh (handlers gv) (prepend (name ev) a)
          (mkWorld (user w)
             (log w ++ [Fired e a; Fired g (prepend (name ev) a)])).
Proof.
  intros He Ho Hglob Hg Hgo.
  assert (e ≠ g) as Hne by (intros ->; congruence).
  pose proof (lookup_lt_Some _ _ _ He) as Hle.
  destruct (global_event_inv _ _ _ Hglob) as (d & Hm & Hd).
  eexists. split; [by apply set_handlers_eq|].
  split; [simpl; rewrite Ho; by apply list_lookup_insert_eq|].
  intros fuel a w.
  erewrite fire_unfold; last by (simpl; apply list_lookup_insert_eq).
  erewrite (notify_global beh fuel _ _ m d g gv); simpl;
    [ | done | done | done | by rewrite list_lookup_insert_ne | done ].
  rewrite <- app_assoc. simpl.
  by destruct (dispatch beh (handlers gv) _ _) as [[[]|x] w1].
Qed.

(** X14.  An event assigned to the attribute [got_event] of a manager is
    stamped like any item, so it becomes its own global event: firing it
    only calls [fire] again, with one more [got_event] in front of the
    arguments, until the recursion limit is hit.  No handler is invoked and
    the caller gets [RuntimeError], whatever the limit. *)
Theorem event_assigned_to_got_event_recurses
  (σ : store) (m e : nat) (d : gmap string entry) (ev : Event) :
  managers σ !! m = Some d →
  events σ !! e = Some ev →
  ∃ σ',
    EventManager_setattr m "got_event" (EEvent e) σ = (Ret (), σ') ∧
    ∀ fuel a w, ∃ l,
      fire beh fuel σ' e a w
      = (Raise RuntimeError, mkWorld (user w) (log w ++ l)) ∧
      length l = fuel ∧ fired_count l = fuel.
Proof.
  intros Hm He.
  pose proof (lookup_lt_Some _ _ _ Hm) as Hlm.
  pose proof (lookup_lt_Some _ _ _ He) as Hle.
  eexists. split; [by eapply EventManager_setitem_event|].
  induction fuel as [|fuel IH]; intros a w.
  - exists []. simpl. rewrite app_nil_r. by destruct w.
  - erewrite fire_unfold; last by (simpl; apply list_lookup_insert_eq).
    unfold notify. cbn [eventmanager name handlers].
    erewrite truthy_manager;
      [ | simpl; by apply list_lookup_insert_eq | apply lookup_insert_eq ].
    erewrite getattr_got_event;
      [ | simpl; by apply list_lookup_insert_eq | apply lookup_insert_eq ].
    destruct (IH (prepend (VStr "got_event") a)
                 (mkWorld (user w) (log w ++ [Fired e a])))
      as (l & -> & Hlen & Hcount).
    exists (Fired e a :: l). simpl. rewrite <- app_assoc. simpl.
    split_and!; [done | by rewrite Hlen |].
    change (fired_count (Fired e a :: l)) with (S (fired_count l)).
    by rewrite Hcount.
Qed.

Lemma getattr_raises σ m s x :
  getattr σ m s = Raise x → x = KeyError ∨ x = SystemError.
Proof.
  unfold getattr. destruct (class_attr s); [done|].
  unfold EventManager_getattr, lift, dict_getitem, read_manager. simpl.
  destruct (managers σ !! m) as [d|]; [|intros [= <-]; by right].
  destruct (d !! s); [done|]. intros [= <-]. by left.
Qed.

(** X15.  As long as the item [got_event] of every manager is an event (or
    is missing), [fire] never raises [StopIteration], whatever the handlers
    raise: each loop catches it. *)
Theorem fire_never_raises_StopIteration
  (σ : store) (fuel : nat) (e : nat) (a : call_args) (w : world U) :
  (∀ m d v, managers σ !! m = Some d → d !! "got_event" ≠ Some (EOther v)) →
  (fire beh fuel σ e a w).1 ≠ Raise StopIteration.
Proof.
  intros Hev. revert e a w. induction fuel as [|fuel IH]; intros e a w; [done|].
  simpl. destruct (read_event σ e) as [ev|x] eqn:Hr.
  2:{ unfold read_event in Hr. destruct (events σ !! e); by simplify_eq. }
  assert ((notify beh (fire beh fuel σ) σ ev a
             (mkWorld (user w) (log w ++ [Fired e a]))).1
          ≠ Raise StopIteration) as Hn.
  { unfold notify, truthy, read_manager.
    destruct (eventmanager ev) as [m|]; [|done].
    destruct (managers σ !! m) as [d|] eqn:Hm; [|done].
    destruct (negb (Nat.eqb (size d) 0)); [|done].
    destruct (getattr σ m "got_event") as [[s|[g|v]]|x] eqn:Hg.
    - done.
    - apply IH.
    - exfalso. apply (Hev m d v Hm).
      unfold getattr in Hg. rewrite class_attr_got_event in Hg.
      unfold EventManager_getattr, lift, dict_getitem, read_manager in Hg.
      simpl in Hg. rewrite Hm in Hg.
      destruct (d !! "got_event"); by simplify_eq.
    - destruct (getattr_raises _ _ _ _ Hg) as [-> | ->]; done. }
  destruct (notify beh (fire beh fuel σ) σ ev a _) as [[[]|x] w1].
  - apply dispatch_swallows_stop.
  - exact Hn.
Qed.

End FiringAfterwards.

(** ** EventManager.apply on whole objects *)

(** X16.  [apply] of an object that has no callable member with a public
    name returns without touching the manager or any event. *)
Theorem apply_without_public_methods
  (σ : store) (m : nat) (members : list (string * value)) :
  Forall (λ p, registered p = false) members →
  EventManager_apply m members σ = (Ret (), σ).
Proof.
  induction 1 as [|[s v] rest Hp _ IH]; [done|].
  unfold registered in Hp. simpl in Hp.
  destruct (callable v) eqn:Hv.
  - rewrite apply_skips_private; [done|].
    by destruct (String.prefix "_" s).
  - by rewrite apply_skips_non_callable.
Qed.

Lemma registered_inv s v :
  registered (s, v) = true →
  (∃ f, v = VFun f) ∧ String.prefix "_" s = false.
Proof.
  unfold registered. simpl. intros [Hc Hp]%andb_prop. split.
  - destruct v; try discriminate. by eexists.
  - by destruct (String.prefix "_" s).
Qed.

(** X17.  [apply] of an object whose public method names are new to the
    manager and are not attributes of the class returns, and afterwards the
    manager holds, for each public method, an event of that name, stamped
    with the name and the manager, whose only handler is the method.  Items
    under other names and the events that existed before are unchanged. *)
Theorem apply_registers_new_names
  (members : list (string * value)) (σ : store) (m : nat)
  (d : gmap string entry) :
  managers σ !! m = Some d →
  NoDup members.*1 →
  (∀ s v, (s, v) ∈ members → registered (s, v) = true →
          class_attr s = false ∧ d !! s = None) →
  ∃ σ' d',
    EventManager_apply m members σ = (Ret (), σ') ∧
    managers σ' !! m = Some d' ∧
    (∀ s v, (s, v) ∈ members → registered (s, v) = true →
       ∃ e, d' !! s = Some (EEvent e) ∧
            events σ' !! e = Some (mkEvent [v] (VStr s) (Some m))) ∧
    (∀ k, (∀ v, (k, v) ∈ members → registered (k, v) = false) →
          d' !! k = d !! k) ∧
    (∀ e ev, events σ !! e = Some ev → events σ' !! e = Some ev).
Proof.
  revert σ d. induction members as [|[s v] rest IH]; intros σ d Hm Hnd Hnew.
  { exists σ, d. split_and!; try done. intros s v Hin. by apply elem_of_nil in Hin. }
  apply NoDup_cons in Hnd as [Hs Hnd]. simpl in Hs.
  destruct (registered (s, v)) eqn:Hreg.
  - destruct (registered_inv _ _ Hreg) as [[f ->] Hp].
    destruct (Hnew s (VFun f)) as [Hc Hd]; [apply elem_of_cons; by left|done|].
    rewrite (apply_creates σ m d s f rest Hm Hd Hc Hp).
    pose proof (lookup_lt_Some _ _ _ Hm) as Hlm.
    edestruct (IH (mkStore (events σ ++ [mkEvent [VFun f] (VStr s) (Some m)])
                     (<[m := <[s := EEvent (length (events σ))]> d]> (managers σ)))
                  (<[s := EEvent (length (events σ))]> d))
      as (σ' & d' & Happ & Hm' & Hreg' & Hother & Hold).
    { simpl. by apply list_lookup_insert_eq. }
    { done. }
    { intros s' v' Hin Hr'.
      destruct (Hnew s' v') as [Hc' Hd']; [apply elem_of_cons; by right|done|].
      split; [done|]. rewrite lookup_insert_ne; [done|].
      intros ->. apply Hs. apply list_elem_of_fmap. by exists (s', v'). }
    exists σ', d'. split_and!; [done | done | | | ].
    + intros s' v' [Heq|Hin]%elem_of_cons Hr'.
      * simplify_eq. exists (length (events σ)). split.
        -- rewrite Hother; [apply lookup_insert_eq|].
           intros v' Hin. exfalso. apply Hs.
           apply list_elem_of_fmap. by exists (s, v').
        -- apply Hold. simpl. apply lookup_at_end.
      * by apply Hreg'.
    + intros k Hk. rewrite Hother.
      * rewrite lookup_insert_ne; [done|]. intros ->.
        specialize (Hk (VFun f)). rewrite Hreg in Hk.
        discriminate Hk. apply elem_of_cons. by left.
      * intros v' Hin. apply Hk. apply elem_of_cons. by right.
    + intros e ev He. apply Hold. simpl. by apply lookup_app_l_Some.
  - assert (EventManager_apply m ((s, v) :: rest) σ
            = EventManager_apply m rest σ) as ->.
    { unfold registered in Hreg. simpl in Hreg.
      destruct (callable v) eqn:Hv.
      - apply apply_skips_private. by destruct (String.prefix "_" s).
      - by apply apply_skips_non_callable. }
    destruct (IH σ d Hm Hnd) as (σ' & d' & Happ & Hm' & Hreg' & Hother & Hold).
    { intros s' v' Hin Hr'. apply (Hnew s' v'); [|done].
      apply elem_of_cons. by right. }
    exists σ', d'. split_and!; [done | done | | | done].
    + intros s' v' [Heq|Hin]%elem_of_cons Hr'; [|by apply Hreg'].
      simplify_eq. congruence.
    + intros k Hk. apply Hother. intros v' Hin. apply Hk.
      apply elem_of_cons. by right.
Qed.

(** X19.  [apply] does not replace an item that is not an event: at a public
    method whose name holds some other value it raises [AttributeError] and
    leaves the store as it was. *)
Theorem apply_on_non_event_item
  (σ : store) (m : nat) (d : gmap string entry) (s : string) (v : value)
  (f : nat) (rest : list (string * value)) :
  managers σ !! m = Some d →
  d !! s = Some (EOther v) →
  String.prefix "_" s = false →
  EventManager_apply m ((s, VFun f) :: rest) σ = (Raise AttributeError, σ).
Proof.
  intros Hm Hs Hp. simpl. rewrite Hp.
  erewrite bind_ret; last first.
  { unfold lift. by rewrite (hasattr_present _ _ _ _ _ Hm Hs). }
  simpl. erewrite bind_ret; last done.
  erewrite bind_ret; last first.
  { unfold lift. by erewrite dict_getitem_present. }
  done.
Qed.

(** X21.  [apply] of an object whose public method names all hold events
    already returns and appends each method to the handlers of the event of
    its name, in the order of [dir], keeping the handlers that were there:
    nothing is replaced or deduplicated, no event is created and no item
    changes. *)
Theorem apply_appends_to_existing
  (members : list (string * value)) (σ : store) (m : nat)
  (d : gmap string entry) :
  managers σ !! m = Some d →
  (∀ s v, (s, v) ∈ members → registered (s, v) = true →
          ∃ e, d !! s = Some (EEvent e) ∧ e < length (events σ)) →
  ∃ σ',
    EventManager_apply m members σ = (Ret (), σ') ∧
    managers σ' = managers σ ∧
    length (events σ') = length (events σ) ∧
    ∀ e ev, events σ !! e = Some ev →
      events σ' !! e
      = Some (mkEvent (handlers ev ++ handed_to d e members) (name ev)
                      (eventmanager ev)).
Proof.
  revert σ. induction members as [|[s v] rest IH]; intros σ Hm Hex.
  { exists σ. split_and!; try done. intros e [hs n o] He. simpl.
    by rewrite app_nil_r. }
  destruct (registered (s, v)) eqn:Hreg.
  - destruct (registered_inv _ _ Hreg) as [[f ->] Hp].
    destruct (Hex s (VFun f)) as (e0 & Hd & Hlt);
      [apply elem_of_cons; by left | done |].
    destruct (lookup_lt_is_Some_2 _ _ Hlt) as [ev0 He0].
    rewrite (apply_appends σ m d s e0 ev0 f rest Hm Hd He0 Hp).
    edestruct (IH (mkStore
                     (<[e0 := mkEvent (handlers ev0 ++ [VFun f]) (name ev0)
                                      (eventmanager ev0)]> (events σ))
                     (managers σ)))
      as (σ' & Happ & Hms & Hlen & Hev).
    { done. }
    { intros s' v' Hin Hr'. simpl. rewrite length_insert.
      apply (Hex s' v'); [apply elem_of_cons; by right | done]. }
    exists σ'.
    split_and!; [done | done | rewrite Hlen; simpl; by rewrite length_insert |].
    intros e ev He. simpl. rewrite Hreg. simpl.
    destruct (decide (e = e0)) as [->|Hne].
    + rewrite bool_decide_true by done. simpl.
      rewrite He0 in He. simplify_eq.
      erewrite Hev; last by (simpl; apply list_lookup_insert_eq).
      simpl. by rewrite <- app_assoc.
    + rewrite bool_decide_false by (rewrite Hd; congruence).
      apply Hev. simpl. by rewrite list_lookup_insert_ne.
  - assert (EventManager_apply m ((s, v) :: rest) σ
            = EventManager_apply m rest σ) as ->.
    { unfold registered in Hreg. simpl in Hreg.
      destruct (callable v) eqn:Hv.
      - apply apply_skips_private. by destruct (String.prefix "_" s).
      - by apply apply_skips_non_callable. }
    destruct (IH σ Hm) as (σ' & Happ & Hms & Hlen & Hev).
    { intros s' v' Hin Hr'.
      apply (Hex s' v'); [apply elem_of_cons; by right | done]. }
    exists σ'. split_and!; [done..|].
    intros e ev He. simpl. rewrite Hreg. simpl. by apply Hev.
Qed.

(** ** The further statements on concrete stores *)



Lemma fire_skips_empty_manager_witness :
  fire quiet 1 emptied_store 0 args12 start
  = (Ret (), mkWorld () [Fired 0 args12; Called (VFun 1) args12]).
Proof.
  rewrite (fire_skips_empty_manager quiet 0 emptied_store 0 0
             (mkEvent [VFun 1] (VStr "foo") (Some 0)) args12 start
             eq_refl eq_refl eq_refl).
  reflexivity.
Defined.

Lemma fire_without_global_event_witness :
  fire quiet 1 no_global_store 0 args12 start
  = (Raise KeyError, mkWorld () [Fired 0 args12]).
Proof.
  apply (fire_without_global_event quiet 0 no_global_store 0 0
           (mkEvent [VFun 1] (VStr "foo") (Some 0)) {["foo" := EEvent 0]}
           args12 start); try reflexivity.
  apply insert_non_empty.
Defined.


Lemma global_exception_aborts_event_witness :
  ∃ u, fire (failing 9 (UserError 7)) 2 foo_store 1 args12 start
       = (Raise (UserError 7),
          mkWorld u ([Fired 1 args12; Fired 0 (prepend (VStr "foo") args12)]
                     ++ calls ([] ++ [VFun 9]) (prepend (VStr "foo") args12))).
Proof.
  apply (global_exception_aborts_event (failing 9 (UserError 7)) 0 foo_store
           0 1 0 foo_event foo_global [] [] (VFun 9) (UserError 7) args12
           start); try reflexivity.
  - constructor.
  - exists 9. by split.
  - discriminate.
Defined.

Lemma not_among_three (f : nat) :
  3 < f → VFun f ∉ [VFun 1; VFun 2; VFun 3].
Proof.
  intros Hf Hin.
  repeat (apply elem_of_cons in Hin as [Hin|Hin]; [simplify_eq; lia|]).
  by apply elem_of_nil in Hin.
Defined.

Lemma add_then_remove_restores_witness :
  (add_handler 0 (VFun 7) ;; remove_handler 0 (VFun 7))
    (three_handlers empty_store).2
  = (Ret (), (three_handlers empty_store).2).
Proof.
  apply (add_then_remove_restores (three_handlers empty_store).2 0
           (mkEvent [VFun 1; VFun 2; VFun 3] VNone None) 7).
  - reflexivity.
  - apply not_among_three. lia.
Defined.

Lemma add_then_remove_moves_last_witness :
  (add_handler 0 (VFun 1) ;; remove_handler 0 (VFun 1))
    (three_handlers empty_store).2
  = (Ret (), mkStore [mkEvent [VFun 2; VFun 3; VFun 1] VNone None] []).
Proof.
  apply (add_then_remove_moves_last (three_handlers empty_store).2 0
           (mkEvent [VFun 1; VFun 2; VFun 3] VNone None) 1 []
           [VFun 2; VFun 3]).
  - reflexivity.
  - reflexivity.
  - apply not_elem_of_nil.
Defined.

Lemma setitem_stamps_event_witness :
  ∃ σ',
    EventManager_setitem 0 "ping" (EEvent 1) manager_and_event = (Ret (), σ') ∧
    events σ' !! 1 = Some (mkEvent [VFun 1] (VStr "ping") (Some 0)).
Proof.
  destruct (setitem_stamps_event manager_and_event 0 1
              {["got_event" := EEvent 0]} (mkEvent [VFun 1] VNone None)
              "ping" eq_refl eq_refl) as (σ' & Hset & _ & Hev & _).
  exists σ'. by split.
Defined.

Lemma setitem_restamps_shared_event_witness :
  ∃ σ',
    EventManager_setitem 1 "pong" (EEvent 2) two_managers = (Ret (), σ') ∧
    dict_getitem σ' 0 "ping" = Ret (EEvent 2) ∧
    events σ' !! 2 = Some (mkEvent [VFun 1] (VStr "pong") (Some 1)).
Proof.
  destruct (setitem_restamps_shared_event two_managers 0 1 2
              (<["ping" := EEvent 2]> {["got_event" := EEvent 0]})
              {["got_event" := EEvent 1]}
              (mkEvent [VFun 1] (VStr "ping") (Some 0)) "ping" "pong")
    as (σ' & Hset & H1 & _ & Hev); try reflexivity; [lia|].
  exists σ'. by split_and!.
Defined.

Lemma setattr_then_read_witness :
  dict_getitem
    (EventManager_setattr 0 "__len__" (EOther (VInt 1)) fresh_manager).2
    0 "__len__" = Ret (EOther (VInt 1)) ∧
  getattr
    (EventManager_setattr 0 "__len__" (EOther (VInt 1)) fresh_manager).2
    0 "__len__" = Ret (ClassAttr "__len__").
Proof.
  exact (setattr_then_read fresh_manager 0 {["got_event" := EEvent 0]}
           "__len__" (EOther (VInt 1)) _ eq_refl eq_refl).
Defined.

Lemma clear_then_fire_still_notifies_witness :
  ∃ σ',
    Event_clear 1 foo_store = (Ret (), σ') ∧
    fire quiet 2 σ' 1 args12 start = (Ret (), foo_notified).
Proof.
  destruct (clear_then_fire_still_notifies quiet foo_store 0 1 0 foo_event
              foo_global eq_refl eq_refl eq_refl eq_refl eq_refl)
    as (σ' & Hclear & _ & Hfire).
  exists σ'. split; [done|]. by rewrite Hfire.
Defined.

Lemma event_assigned_to_got_event_recurses_witness :
  ∃ σ',
    EventManager_setattr 0 "got_event" (EEvent 1) manager_and_event
      = (Ret (), σ') ∧
    (fire quiet 1000 σ' 1 args12 start).1 = Raise RuntimeError.
Proof.
  destruct (event_assigned_to_got_event_recurses quiet manager_and_event 0 1
              {["got_event" := EEvent 0]} (mkEvent [VFun 1] VNone None)
              eq_refl eq_refl) as (σ' & Hset & Hfire).
  exists σ'. split; [done|].
  destruct (Hfire 1000 args12 start) as (l & -> & _). done.
Defined.

Lemma fire_never_raises_StopIteration_witness :
  (fire (stopping 2) 2 foo_store 1 args12 start).1 ≠ Raise StopIteration.
Proof.
  apply (fire_never_raises_StopIteration (stopping 2) foo_store 2 1 args12
           start).
  intros m d v Hm Hd. destruct m as [|m]; [|done].
  change (Some foo_dict = Some d) in Hm. by simplify_eq.
Defined.

Lemma apply_without_public_methods_witness :
  EventManager_apply 0 plain_object fresh_manager = (Ret (), fresh_manager).
Proof.
  apply (apply_without_public_methods fresh_manager 0 plain_object).
  by repeat constructor.
Defined.

Lemma ab_object_new (s : string) (v : value) :
  (s, v) ∈ ab_object → registered (s, v) = true →
  class_attr s = false ∧
  ({["got_event" := EEvent 0]} : gmap string entry) !! s = None.
Proof.
  intros Hin Hr. unfold ab_object in Hin.
  repeat (apply elem_of_cons in Hin as [Hin|Hin];
          [simplify_eq; try discriminate Hr; by split|]).
  by apply elem_of_nil in Hin.
Defined.

Lemma apply_registers_new_names_witness :
  ∃ σ' d',
    EventManager_apply 0 ab_object fresh_manager = (Ret (), σ') ∧
    managers σ' !! 0 = Some d' ∧
    (∃ e, d' !! "a" = Some (EEvent e) ∧
          events σ' !! e = Some (mkEvent [VFun 1] (VStr "a") (Some 0))) ∧
    (∃ e, d' !! "b" = Some (EEvent e) ∧
          events σ' !! e = Some (mkEvent [VFun 2] (VStr "b") (Some 0))).
Proof.
  destruct (apply_registers_new_names ab_object fresh_manager 0
              {["got_event" := EEvent 0]} eq_refl)
    as (σ' & d' & Happ & Hm & Hreg & _).
  - apply (bool_decide_unpack _). by vm_compute.
  - apply ab_object_new.
  - exists σ', d'. split_and!; [done | done | |].
    + apply (Hreg "a" (VFun 1)); [|done].
      apply elem_of_cons; right. apply elem_of_cons; by left.
    + apply (Hreg "b" (VFun 2)); [|done].
      do 2 (apply elem_of_cons; right). apply elem_of_cons; by left.
Defined.

Lemma apply_twice_accumulates_witness :
  ∃ ea eb σ1 σ2,
    EventManager_apply 0 [("a", VFun 1); ("b", VFun 2)] fresh_manager
      = (Ret (), σ1) ∧
    EventManager_apply 0 [("a", VFun 1); ("b", VFun 2)] σ1 = (Ret (), σ2) ∧
    events σ2 !! ea = Some (mkEvent [VFun 1; VFun 1] (VStr "a") (Some 0)) ∧
    events σ2 !! eb = Some (mkEvent [VFun 2; VFun 2] (VStr "b") (Some 0)).
Proof.
  destruct (apply_twice_accumulates fresh_manager 0
              {["got_event" := EEvent 0]} "a" "b" 1 2)
    as (ea & eb & σ1 & σ2 & H1 & H2 & _ & _ & _ & _ & Ha & Hb);
    try reflexivity; [discriminate|].
  exists ea, eb, σ1, σ2. by split_and!.
Defined.

Lemma apply_on_non_event_item_witness :
  EventManager_apply 0 [("a", VFun 1); ("b", VFun 2)] manager_with_value
  = (Raise AttributeError, manager_with_value).
Proof.
  apply (apply_on_non_event_item manager_with_value 0
           (<["a" := EOther (VInt 5)]> {["got_event" := EEvent 0]}) "a"
           (VInt 5)); reflexivity.
Defined.

Lemma ab_object_present (s : string) (v : value) :
  (s, v) ∈ ab_object → registered (s, v) = true →
  ∃ e, applied_dict !! s = Some (EEvent e) ∧ e < length (events applied_once).
Proof.
  intros Hin Hr. unfold ab_object in Hin.
  repeat (apply elem_of_cons in Hin as [Hin|Hin];
          [simplify_eq;
           first [ by vm_compute in Hr
                 | eexists; split; [reflexivity | vm_compute; lia] ]|]).
  by apply elem_of_nil in Hin.
Defined.

Lemma apply_appends_to_existing_witness :
  ∃ σ',
    EventManager_apply 0 ab_object applied_once = (Ret (), σ') ∧
    events σ' !! 1 = Some (mkEvent [VFun 1; VFun 1] (VStr "a") (Some 0)) ∧
    events σ' !! 2 = Some (mkEvent [VFun 2; VFun 2] (VStr "b") (Some 0)).
Proof.
  destruct (apply_appends_to_existing ab_object applied_once 0 applied_dict
              eq_refl ab_object_present) as (σ' & Happ & _ & _ & Hev).
  exists σ'. split_and!; [done | |].
  - by rewrite (Hev 1 (mkEvent [VFun 1] (VStr "a") (Some 0)) eq_refl).
  - by rewrite (Hev 2 (mkEvent [VFun 2] (VStr "b") (Some 0)) eq_refl).
Defined.

Lemma busy_client_keeps : Forall (keeps 0 0) busy_client.
Proof. repeat constructor; done. Defined.

Lemma constructed_global_event_fires_flat_witness :
  global_event (run busy_client fresh_manager) 0 = Some 0 ∧
  fire quiet 8 (run busy_client fresh_manager) 0 args12 start
  = (Ret (), mkWorld () (Fired 0 args12
                         :: calls [VFun 8; VFun 9; VFun 3] args12)).
Proof.
  destruct (constructed_global_event_fires_flat quiet empty_store ∅)
    as (m & g & σ' & Hi & H).
  assert (EventManager_init ∅ empty_store = (Ret 0, fresh_manager)) as Hinit
    by (vm_compute; reflexivity).
  rewrite Hinit in Hi. injection Hi as <- <-.
  assert (g = 0) as ->.
  { destruct (H [] (List.Forall_nil _)) as [Hg _].
    assert (global_event (run [] fresh_manager) 0 = Some 0) as Hg0
      by (vm_compute; reflexivity).
    rewrite Hg0 in Hg. by injection Hg. }
  destruct (H busy_client busy_client_keeps) as (Hglob & gv & Hgv & _ & Hfire).
  split; [exact Hglob|]. rewrite Hfire.
  assert (events (run busy_client fresh_manager) !! 0 = Some busy_global)
    as Hev by (vm_compute; reflexivity).
  rewrite Hev in Hgv. injection Hgv as <-. reflexivity.
Defined.
